(** * node-dijkstra: a shallow embedding of [dist/dijkstra.js]

    The bundle holds three modules: [Graph] (constructor, [addNode],
    [addVertex], [path], [shortestPath]), [PriorityQueue] (the frontier of
    the search) and [populateMap] (with [validateNode]).

    [libs/index.js] is an earlier variant of the [Graph] class.  Its queue
    is the npm package [priorityqueuejs], which the repository does not
    hold, and it has neither [addNode] nor the [cost] option; the statements
    of its [path] after the loop ([trim], [reverse]) are those of the
    bundle.  This development is about the bundle.

    Modelling conventions.
    - The numbers of the model are the integers among JavaScript's
      numbers, in [Z]; [2 ^ 1024] stands for [Infinity].  Their sum is the
      one of the language: the exact sum, rounded to the nearest double
      ([double]).  [NaN] is the only other number that the code tests for;
      it is [None] in [option Z].
    - A JavaScript [Map] keeps its keys in insertion order and [forEach]
      follows that order, so a [Map] is an association list.  A [Set] and
      the back-pointer [Map], which are only probed by key, are a [gset]
      and a [gmap].
    - A method that can throw returns a [completion]; the two loops that the
      language does not bound ([while (!frontier.isEmpty())] and
      [while (previous.has(..))]) take fuel, and [None] means that the fuel
      ran out. *)

From stdpp Require Import list gmap strings.
From Stdlib Require Import ZArith Lia Sorted.

Local Open Scope string_scope.
Local Open Scope list_scope.
Local Open Scope Z_scope.

(** ** Completions *)

(** Every [throw] of the bundle is a [TypeError]; the constructors tell the
    sites apart. *)
Inductive TypeError : Set :=
  | CostNotANumber        (* validateNode: "Cost must be a number, istead got" *)
  | CostBelowZero         (* validateNode: "The cost must be a number above 0" *)
  | PriorityNotANumber    (* PriorityQueue#set: '"priority" must be a number' *)
  | NotAFunction          (* [neighbors.forEach] on a number *)
  | UndefinedProperty.    (* a property read on [undefined] *)

Inductive completion (A : Type) : Type :=
  | Normal (a : A)
  | Throw (e : TypeError).
Arguments Normal {A} a.
Arguments Throw {A} e.

#[global] Instance completion_ret : MRet completion := λ A a, Normal a.
#[global] Instance completion_bind : MBind completion := λ A B k c,
  match c with
  | Normal a => k a
  | Throw e => Throw e
  end.
#[global] Instance completion_fmap : FMap completion := λ A B f c,
  match c with
  | Normal a => Normal (f a)
  | Throw e => Throw e
  end.

(** ** JavaScript [Map] with insertion order *)

Abbreviation Map V := (list (string * V)).

Section map_ops.
Context {V : Type}.

Fixpoint map_get (m : Map V) (k : string) : option V :=
  match m with
  | [] => None
  | (k', v) :: m' => if decide (k' = k) then Some v else map_get m' k
  end.

(** [map.set(k, v)]: an existing key keeps its place, a new one goes last. *)
Fixpoint map_set (k : string) (v : V) (m : Map V) : Map V :=
  match m with
  | [] => [(k, v)]
  | (k', v') :: m' =>
      if decide (k' = k) then (k, v) :: m' else (k', v') :: map_set k v m'
  end.

Definition map_size (m : Map V) : nat := length m.
End map_ops.

(** ** Values *)

#[local] Unset Elimination Schemes.

(** What a populated [Map] stores under a key: the validated number of a
    leaf, or the [Map] built from a nested object. *)
Inductive value : Type :=
  | VNum (c : Z)
  | VMap (m : list (string * value)).

(** The raw data handed to the constructor and to [addNode].  An object is
    the list of its own enumerable properties in [Object.keys] order. *)
Inductive jsval : Type :=
  | JUndefined
  | JNull
  | JBool (b : bool)
  | JNum (z : Z)
  | JNaN
  | JStr (s : string)
  | JObj (fields : list (string * jsval)).

#[local] Set Elimination Schemes.

Abbreviation Graph := (list (string * value)).

(** ** [PriorityQueue] *)

Record entry : Set := Entry { key : string; priority : Z }.

#[global] Instance entry_eq_dec : EqDecision entry.
Proof. solve_decision. Defined.

Record PriorityQueue : Type := Queue { _keys : gset string; _queue : list entry }.

Module PriorityQueue.

Definition new : PriorityQueue := Queue ∅ [].

(** [_queue.sort((a, b) => a.priority - b.priority)].  The sort is stable
    (ECMAScript 2019); it is an insertion sort here. *)
Fixpoint place (e : entry) (l : list entry) : list entry :=
  match l with
  | [] => [e]
  | x :: r => if priority e <=? priority x then e :: x :: r else x :: place e r
  end.

Definition sorted (l : list entry) : list entry := foldr place [] l.

Definition _sort (q : PriorityQueue) : PriorityQueue :=
  Queue (_keys q) (sorted (_queue q)).

(** The callback of [_queue.map] in [set]. *)
Definition reprioritise (k : string) (p : Z) (element : entry) : entry :=
  if decide (key element = k) then Entry (key element) p else element.

(** [set(key, priority)]; [priority] is [Number(priority)], [None] when
    that is [NaN].  The method returns the length of the new [_queue],
    which no caller in the bundle reads. *)
Definition set (k : string) (p : option Z) (q : PriorityQueue)
    : completion PriorityQueue :=
  match p with
  | None => Throw PriorityNotANumber
  | Some p =>
      Normal (_sort
        (if decide (k ∈ _keys q)
         then Queue (_keys q) (reprioritise k p <$> _queue q)
         else Queue ({[k]} ∪ _keys q) (_queue q ++ [Entry k p])))
  end.

#[global] Arguments set : simpl never.

(** [next()]: [_queue.shift()], then the key leaves [_keys]. *)
Definition next (q : PriorityQueue) : completion (entry * PriorityQueue) :=
  match _queue q with
  | [] => Throw UndefinedProperty
  | element :: rest => Normal (element, Queue (_keys q ∖ {[key element]}) rest)
  end.

Definition isEmpty (q : PriorityQueue) : bool :=
  bool_decide (length (_queue q) = 0%nat).

Definition has (k : string) (q : PriorityQueue) : bool :=
  bool_decide (k ∈ _keys q).

(** [_queue.find(element => element.key === key)] *)
Fixpoint find (k : string) (l : list entry) : option entry :=
  match l with
  | [] => None
  | element :: l => if decide (key element = k) then Some element else find k l
  end.

Definition get (k : string) (q : PriorityQueue) : option entry :=
  find k (_queue q).

End PriorityQueue.

(** ** [populateMap] *)

Section populate.
(** [Number(s)] for a string: the grammar of numeric literals is the
    language's, not the bundle's. *)
Variable StringToNumber : string → option Z.

(** [Number(cost)] for a value that is not an object; [validateNode] is
    only called on such values. *)
Definition ToNumber (v : jsval) : option Z :=
  match v with
  | JUndefined => None
  | JNull => Some 0
  | JBool b => Some (if b then 1 else 0)
  | JNum z => Some z
  | JNaN => None
  | JStr s => StringToNumber s
  | JObj _ => None
  end.

Definition validateNode (cost : jsval) : completion Z :=
  match ToNumber cost with
  | None => Throw CostNotANumber
  | Some cost => if cost <? 0 then Throw CostBelowZero else Normal cost
  end.

(** The value stored for one property: a nested object is populated into a
    [new Map()], anything else goes through [validateNode].  The inner
    loop is [populateMap] itself, see [populateValue_object]. *)
Fixpoint populateValue (v : jsval) : completion value :=
  match v with
  | JObj fields =>
      let fix populate (map : Map value) (keys : list (string * jsval))
          : Map value * completion unit :=
        match keys with
        | [] => (map, Normal tt)
        | (k, x) :: keys =>
            match populateValue x with
            | Throw e => (map, Throw e)
            | Normal y => populate (map_set k y map) keys
            end
        end in
      match populate [] fields with
      | (map, Normal _) => Normal (VMap map)
      | (_, Throw e) => Throw e
      end
  | _ => VNum <$> validateNode v
  end.

(** [populateMap(map, object, Object.keys(object))].  [map] is mutated in
    place: the first component is its state when the call ends, normally
    or not.  The loop consumes [keys] and reads [object[key]]; the
    properties come paired with their values here. *)
Fixpoint populateMap (map : Map value) (keys : list (string * jsval))
    : Map value * completion unit :=
  match keys with
  | [] => (map, Normal tt)
  | (k, x) :: keys =>
      match populateValue x with
      | Throw e => (map, Throw e)
      | Normal y => populateMap (map_set k y map) keys
      end
  end.

(** ** [Graph]: construction *)

(** [new Graph(graph)]; [None] when the argument is left out. *)
Definition new_Graph (graph : option (list (string * jsval))) : completion Graph :=
  match graph with
  | None => Normal []
  | Some object =>
      match populateMap [] object with
      | (this_graph, Normal _) => Normal this_graph
      | (_, Throw e) => Throw e
      end
  end.

(** [addNode(name, neighbors)] on an instance whose [this.graph] is
    [graph]; the first component is [this.graph] after the call. *)
Definition addNode (name : string) (neighbors : list (string * jsval))
    (graph : Graph) : Graph * completion unit :=
  match populateMap [] neighbors with
  | (_neighbors, Normal _) => (map_set name (VMap _neighbors) graph, Normal tt)
  | (_, Throw e) => (graph, Throw e)
  end.

(** [addVertex]: logs the deprecation, then [addNode]. *)
Definition addVertex (name : string) (neighbors : list (string * jsval))
    (graph : Graph) (console : list string)
    : Graph * list string * completion unit :=
  let console :=
    console ++ ["Graph#addVertex is deprecated, use Graph#addNode instead"] in
  let '(graph, c) := addNode name neighbors graph in
  (graph, console, c).
End populate.

(** ** [Graph]: the path query *)

(** Truthiness, and the three property reads of [path] on whatever was
    passed as [options]: an own property of an object, [String.prototype.trim]
    on a string, [undefined] otherwise. *)
Definition truthy (v : jsval) : bool :=
  match v with
  | JUndefined | JNull | JNaN => false
  | JBool b => b
  | JNum z => negb (z =? 0)
  | JStr s => negb (bool_decide (s = EmptyString))
  | JObj _ => true
  end.

Definition property (o : jsval) (name : string) : bool :=
  match o with
  | JObj fields =>
      match map_get fields name with Some v => truthy v | None => false end
  | JStr _ => bool_decide (name = "trim")
  | _ => false
  end.

(** What [path] returns: [null], an array, or [{ path, cost }]. *)
Inductive js_result : Type :=
  | RNull
  | RPath (p : list string)
  | RObject (p : option (list string)) (cost : Z).

(** The locals of a query that the loop changes. *)
Record search : Type := Search {
  explored : gset string;
  frontier : PriorityQueue;
  previous : gmap string string
}.

(** ** Numbers *)

(** The double nearest to an integer [z] that is not negative.  Below
    [2 ^ 53] every integer is a double.  From there on, a double has 53
    significant bits: with [e = Z.log2 z - 52] it is a multiple of [2 ^ e],
    and [z] goes to the nearer of the two multiples around it, to the one
    with the even significand when it lies half way. *)
Definition nearest (z : Z) : Z :=
  let e := Z.log2 z - 52 in
  if e <=? 0 then z
  else
    let q := z / 2 ^ e in
    let r := z mod 2 ^ e in
    let half := 2 ^ (e - 1) in
    (if (r <? half) || ((r =? half) && Z.even q) then q else q + 1) * 2 ^ e.

(** What is rounded to [2 ^ 1024] or beyond has overflowed. *)
Definition Infinity : Z := 2 ^ 1024.

(** The number that the language makes of an exact result [z]. *)
Definition double (z : Z) : Z :=
  Z.sgn z * Z.min (nearest (Z.abs z)) Infinity.

#[global] Arguments double : simpl never.

(** [node.priority + _cost]: the sum of two numbers, or the concatenation
    of a number and ["[object Map]"], which [Number] turns into [NaN].  The
    sum is the language's for numbers that are not negative, [Infinity]
    included, and for finite numbers of either sign.  [Infinity] plus a
    negative number, or plus [-Infinity] (which is [NaN]), needs a cost
    below zero, and [validateNode] lets none into a graph. *)
Definition plus (p : Z) (_cost : value) : option Z :=
  match _cost with
  | VNum c => Some (double (p + c))
  | VMap _ => None
  end.

(** The callback of [neighbors.forEach]. *)
Definition relax (node : entry) (st : search) (neighbor : string * value)
    : completion search :=
  let '(_node, _cost) := neighbor in
  if decide (_node ∈ explored st) then Normal st
  else if negb (PriorityQueue.has _node (frontier st)) then
    let previous := <[_node := key node]> (previous st) in
    fr ← PriorityQueue.set _node (plus (priority node) _cost) (frontier st);
    Normal (Search (explored st) fr previous)
  else
    match PriorityQueue.get _node (frontier st) with
    | None => Throw UndefinedProperty
    | Some element =>
        let frontierPriority := priority element in
        match plus (priority node) _cost with
        | Some nodeCost =>
            if nodeCost <? frontierPriority then
              let previous := <[_node := key node]> (previous st) in
              fr ← PriorityQueue.set _node (Some nodeCost) (frontier st);
              Normal (Search (explored st) fr previous)
            else Normal st
        | None => Normal st   (* a string compared with a number: [false] *)
        end
    end.

Fixpoint forEach {S A} (f : S → A → completion S) (l : list A) (s : S)
    : completion S :=
  match l with
  | [] => Normal s
  | a :: l => s ← f s a; forEach f l s
  end.

(** [_this.graph.get(node.key) || new Map()], as used by [forEach]. *)
Definition neighbors_of (graph : Graph) (k : string) : completion (Map value) :=
  match map_get graph k with
  | None => Normal []
  | Some (VNum c) => if c =? 0 then Normal [] else Throw NotAFunction
  | Some (VMap m) => Normal m
  end.

(** [while (previous.has(_nodeKey)) { path.push(_nodeKey); _nodeKey =
    previous.get(_nodeKey) }] *)
Fixpoint walk (fuel : nat) (previous : gmap string string) (_nodeKey : string)
    : option (list string) :=
  match fuel with
  | O => None
  | S fuel =>
      match previous !! _nodeKey with
      | None => Some []
      | Some p => (_nodeKey ::.) <$> walk fuel previous p
      end
  end.

(** The body of [_loop] after a node that is not the goal was taken. *)
Definition expand (graph : Graph) (node : entry) (st : search)
    : completion search :=
  let st := Search ({[key node]} ∪ explored st) (frontier st) (previous st) in
  neighbors ← neighbors_of graph (key node);
  forEach (relax node) neighbors st.

(** [while (!frontier.isEmpty()) { ... }]; the result is [(path, totalCost)]. *)
Fixpoint loop (fuel : nat) (graph : Graph) (goal : string) (st : search)
    : option (completion (list string * Z)) :=
  match fuel with
  | O => None
  | S fuel =>
      if PriorityQueue.isEmpty (frontier st) then Some (Normal ([], 0))
      else
        match PriorityQueue.next (frontier st) with
        | Throw e => Some (Throw e)
        | Normal (node, fr) =>
            let st := Search (explored st) fr (previous st) in
            if decide (key node = goal) then
              path ← walk (S (size (previous st))) (previous st) (key node);
              Some (Normal (path, priority node))
            else
              match expand graph node st with
              | Throw e => Some (Throw e)
              | Normal st => loop fuel graph goal st
              end
        end
  end.

(** The state before the loop: [frontier.set(start, 0)]. *)
Definition seeded (start : string) : completion search :=
  fr ← PriorityQueue.set start (Some 0) PriorityQueue.new;
  Normal (Search ∅ fr ∅).

(** The statements of [path] after the loop. *)
Definition shape (options : jsval) (start : string) (path : list string)
    (totalCost : Z) : js_result :=
  if bool_decide (length path = 0%nat) then
    if property options "cost" then RObject None 0 else RNull
  else
    let path := if property options "trim" then tail path else path ++ [start] in
    let path := if negb (property options "reverse") then reverse path else path in
    if property options "cost" then RObject (Some path) totalCost else RPath path.

(** [options || {}] *)
Definition defaulted (options : jsval) : jsval :=
  if truthy options then options else JObj [].

(** [path(start, goal, options)] with the fuel of the loop given. *)
Definition path_within (fuel : nat) (graph : Graph) (start goal : string)
    (options : jsval) : option (completion js_result) :=
  let options := defaulted options in
  if bool_decide (map_size graph = 0%nat) then
    Some (Normal (if property options "cost" then RObject None 0 else RNull))
  else
    match seeded start with
    | Throw e => Some (Throw e)
    | Normal st =>
        c ← loop fuel graph goal st;
        Some ('(path, totalCost) ← c; Normal (shape options start path totalCost))
    end.

(** The targets of all edges: with [start], the only keys that can ever
    enter the frontier. *)
Definition targets (graph : Graph) : list string :=
  flat_map (λ kv, match snd kv with VMap m => fst <$> m | VNum _ => [] end) graph.

(** [path(start, goal, options)].  The loop takes each key at most once, so
    this fuel is never used up ([path_within_enough]). *)
Definition path (graph : Graph) (start goal : string) (options : jsval)
    : option (completion js_result) :=
  path_within (2 + length (targets graph)) graph start goal options.

(** [shortestPath]: logs the deprecation, then [path]. *)
Definition shortestPath (graph : Graph) (start goal : string) (options : jsval)
    (console : list string) : list string * option (completion js_result) :=
  (console ++ ["Graph#shortestPath is deprecated, use Graph#path instead"],
   path graph start goal options).

(** * The vocabulary of the properties *)

(** ** Sample graphs and options *)

(** The graph of the specification's example. *)
Definition example_graph : Graph :=
  [("A", VMap [("B", VNum 1); ("C", VNum 4)]);
   ("B", VMap [("C", VNum 1)]);
   ("C", VMap [])].

(** A graph that the constructor builds from a nested group. *)
Definition nested_graph : Graph :=
  [("A", VMap [("B", VMap [("C", VNum 1)])])].


(** A graph in which the sum along the cheaper route lies half way between
    two doubles. *)
Definition tie_graph : Graph :=
  [("A", VMap [("B", VNum (2 ^ 53 + 2)); ("C", VNum (2 ^ 53 + 4))]);
   ("B", VMap [("C", VNum 1)])].

(** A graph with a node that no edge reaches. *)
Definition island_graph : Graph :=
  [("A", VMap [("B", VNum 1)]); ("D", VMap [])].

Definition with_cost : jsval := JObj [("cost", JBool true)].

Definition with_trim : jsval := JObj [("trim", JBool true)].

Definition with_reverse : jsval := JObj [("reverse", JBool true)].

(** ** The frontier *)

(** The representation invariant of the queue: one entry per key, and
    [_keys] is the set of the keys of [_queue]. *)
Definition frontier_wf (q : PriorityQueue) : Prop :=
  NoDup (key <$> _queue q) ∧ ∀ k, k ∈ _keys q ↔ k ∈ key <$> _queue q.

(** ** Edges and routes *)

(** [edge graph u v c]: the record of [u] is a [Map] that holds [v] with the
    number [c]. *)
Definition edge (graph : Graph) (u v : string) (c : Z) : Prop :=
  ∃ m, map_get graph u = Some (VMap m) ∧ (v, VNum c) ∈ m.

(** [route graph p d]: each consecutive pair of [p] is an edge, and the
    costs of these edges sum to [d]. *)
Inductive route (graph : Graph) : list string → Z → Prop :=
  | route_one u : route graph [u] 0
  | route_cons u v p c d :
      edge graph u v c → route graph (v :: p) d → route graph (u :: v :: p) (c + d).

(** [travel graph a p d]: each consecutive pair of [p] is an edge, and
    adding the costs of these edges to [a] as the code does, one after the
    other from the head of [p] on, gives [d]. *)
Inductive travel (graph : Graph) : Z → list string → Z → Prop :=
  | travel_one a u : travel graph a [u] a
  | travel_cons a u v p c d :
      edge graph u v c → travel graph (double (a + c)) (v :: p) d →
      travel graph a (u :: v :: p) d.

(** A stored cost that is a number is not negative. *)
Definition nonneg_leaf (kv : string * value) : bool :=
  match kv.2 with VNum c => 0 <=? c | VMap _ => true end.

(** A stored cost is a number, not a nested group. *)
Definition number_leaf (kv : string * value) : bool :=
  match kv.2 with VNum _ => true | VMap _ => false end.

(** All edge costs are non-negative. *)
Definition nonneg_costs (graph : Graph) : bool :=
  forallb (λ kv,
    match kv.2 with
    | VMap m => forallb nonneg_leaf m
    | VNum _ => true
    end) graph.

(** No number of a stored value is negative, at any depth. *)
Fixpoint nonneg_value (v : value) : bool :=
  match v with
  | VNum c => 0 <=? c
  | VMap m => forallb (λ kv, nonneg_value kv.2) m
  end.

(** No number of the graph is negative: the record of a node that is a
    number, a cost, a cost in a nested group. *)
Definition nonneg_numbers (graph : Graph) : bool :=
  forallb (λ kv, nonneg_value kv.2) graph.

(** Every record is a [Map] from keys to numbers: no number at the top, no
    nested group below. *)
Definition flat (graph : Graph) : bool :=
  forallb (λ kv,
    match kv.2 with
    | VMap m => forallb number_leaf m
    | VNum _ => false
    end) graph.

(** There is a route from [start] to [goal]. *)
Definition connected (graph : Graph) (start goal : string) : Prop :=
  ∃ p d, route graph p d ∧ head p = Some start ∧ last p = Some goal.

(** No cost in [neighbors] is a nested group. *)
Definition plain (neighbors : list (string * jsval)) : bool :=
  forallb (λ kv, match kv.2 with JObj _ => false | _ => true end) neighbors.

(** ** Results *)

(** The value that stands for "no path". *)
Definition no_path (options : jsval) : js_result :=
  if property (defaulted options) "cost" then RObject None 0 else RNull.

(** The array of a result, and its cost when the result carries one. *)
Definition result_path (r : js_result) : option (list string) :=
  match r with
  | RNull => None
  | RPath p => Some p
  | RObject p _ => p
  end.

Definition result_cost (r : js_result) : option Z :=
  match r with
  | RObject _ cost => Some cost
  | _ => None
  end.

(** The error of a call, if it raised one. *)
Definition error_of {A} (c : option (completion A)) : option TypeError :=
  match c with
  | Some (Throw e) => Some e
  | _ => None
  end.

(** A result with its array reversed. *)
Definition reverse_result (r : js_result) : js_result :=
  match r with
  | RNull => RNull
  | RPath p => RPath (reverse p)
  | RObject p cost => RObject (reverse <$> p) cost
  end.

(** The three flags that [path] reads from whatever [options] is. *)
Definition configuration (options : jsval) : jsval :=
  JObj [("trim", JBool (property (defaulted options) "trim"));
        ("reverse", JBool (property (defaulted options) "reverse"));
        ("cost", JBool (property (defaulted options) "cost"))].

(** ** Costs that [validateNode] rejects *)

Section invalid.
Variable StringToNumber : string → option Z.

(** A cost that [validateNode] rejects, at any depth below [v]. *)
Fixpoint invalid_cost (v : jsval) : bool :=
  match v with
  | JObj fields => existsb (λ kv, invalid_cost kv.2) fields
  | _ =>
      match ToNumber StringToNumber v with
      | None => true
      | Some z => z <? 0
      end
  end.

(** The two errors of [validateNode]. *)
Definition InvalidCost (e : TypeError) : Prop :=
  e = CostNotANumber ∨ e = CostBelowZero.
End invalid.

(** ** The states of a query *)

(** The states that the locals of [path] go through, one step per call of
    a method of the frontier: the seed, the taking of a node (with its
    entry into [explored]), and each call of the [forEach] callback. *)
Inductive during (start : string) : search → Prop :=
  | during_seeded st : seeded start = Normal st → during start st
  | during_next st node fr :
      during start st →
      PriorityQueue.next (frontier st) = Normal (node, fr) →
      during start (Search ({[key node]} ∪ explored st) fr (previous st))
  | during_relax st node neighbor st' :
      during start st →
      relax node st neighbor = Normal st' →
      during start st'.

(** ** The ghost state of the loop *)

Section ghost.
Variable graph : Graph.
Variable start : string.

(** The ghost state of the proofs is the list of the entries taken from
    the frontier so far, the latest first.  An entry is [reached] when it
    is the seed, or when its back-pointer names an entry taken earlier,
    from which an edge leads to it, and its priority is the sum that the
    code made. *)
Definition reached (prev : gmap string string) (taken : list entry)
    (e : entry) : Prop :=
  (taken = [] ∧ e = Entry start 0) ∨
  (∃ p c, p ∈ taken ∧ prev !! key e = Some (key p) ∧
          edge graph (key p) (key e) c ∧
          priority e = double (priority p + c)).

Fixpoint settled (prev : gmap string string) (taken : list entry) : Prop :=
  match taken with
  | [] => True
  | e :: taken => reached prev taken e ∧ (key e ∉ key <$> taken) ∧ settled prev taken
  end.

Record invariant (taken : list entry) (st : search) : Prop := {
  inv_explored : ∀ k, k ∈ explored st ↔ k ∈ key <$> taken;
  inv_settled : settled (previous st) taken;
  inv_frontier : ∀ e, e ∈ _queue (frontier st) → reached (previous st) taken e;
  inv_wf : frontier_wf (frontier st);
  inv_fresh : ∀ e, e ∈ _queue (frontier st) → key e ∉ explored st;
  inv_start : previous st !! start = None
}.

(** [chain l n d]: [l] is what the walk from [n] along the back-pointers
    pushes ([n] first, [start] left out), each step runs against an edge,
    and the code's sum of the edges, from [start] on, is [d]. *)
Inductive chain : list string → string → Z → Prop :=
  | chain_start : chain [] start 0
  | chain_step l p n d c :
      chain l p d → edge graph p n c → chain (n :: l) n (double (d + c)).

Variable goal : string.

(** What the loop hands to the rest of [path]. *)
Definition outcome (path : list string) (totalCost : Z) : Prop :=
  (path = [] ∧ totalCost = 0) ∨
  (∃ l, path = goal :: l ∧ chain path goal totalCost ∧
        NoDup path ∧ start ∉ path).
End ghost.

(** ** The queue on its own *)

(** The entries come in the order of their priorities. *)
Definition ordered (l : list entry) : Prop :=
  StronglySorted (λ a b, priority a ≤ priority b) l.

(** The queues that the methods build from [new PriorityQueue()]. *)
Inductive queue_state : PriorityQueue → Prop :=
  | queue_new : queue_state PriorityQueue.new
  | queue_set q k p q' :
      queue_state q → PriorityQueue.set k p q = Normal q' → queue_state q'
  | queue_next q element q' :
      queue_state q → PriorityQueue.next q = Normal (element, q') →
      queue_state q'.

(** ** The ghost state of the loop, continued *)

Section relaxation.
Variable graph : Graph.
Variable start : string.

(** The edge from the taken entry [e] to [v] with cost [c] has been
    relaxed: [v] is explored, or it waits in the frontier with a priority
    that is at most the one that this edge gives. *)
Definition covered (st : search) (e : entry) (v : string) (c : Z) : Prop :=
  v ∈ explored st ∨
  ∃ f, f ∈ _queue (frontier st) ∧ key f = v ∧
       priority f ≤ double (priority e + c).

(** No route from [start] to the key of [e] costs less than its priority,
    with the costs summed as the code sums them. *)
Definition shortest (e : entry) : Prop :=
  ∀ p d, travel graph 0 p d → head p = Some start → last p = Some (key e) →
         priority e ≤ d.

(** The state between two rounds of the loop. *)
Record relaxed (taken : list entry) (st : search) : Prop := {
  rel_invariant : invariant graph start taken st;
  rel_ordered : ordered (_queue (frontier st));
  rel_covered :
    ∀ e v c, e ∈ taken → edge graph (key e) v c → covered st e v c;
  rel_seed : taken = [] → _queue (frontier st) ≠ [];
  rel_shortest : nonneg_costs graph = true → ∀ e, e ∈ taken → shortest e
}.
End relaxation.

(** ** Building a graph *)

Section construction.
Variable StringToNumber : string → option Z.

(** The graphs that [new Graph(..)] and [addNode] build; a call of
    [addNode] that throws leaves the graph as it was. *)
Inductive constructed : Graph → Prop :=
  | constructed_new object graph :
      new_Graph StringToNumber object = Normal graph → constructed graph
  | constructed_addNode graph name neighbors graph' c :
      constructed graph →
      addNode StringToNumber name neighbors graph = (graph', c) →
      constructed graph'.

(** [addNode] for each node of a list in turn, up to the first call that
    throws. *)
Fixpoint addNodes (nodes : list (string * list (string * jsval)))
    (graph : Graph) : Graph * completion unit :=
  match nodes with
  | [] => (graph, Normal tt)
  | (name, neighbors) :: nodes =>
      match addNode StringToNumber name neighbors graph with
      | (graph, Normal _) => addNodes nodes graph
      | (graph, Throw e) => (graph, Throw e)
      end
  end.
End construction.

(** The object [{ name: neighbors, ... }] of a list of nodes. *)
Definition object_of (nodes : list (string * list (string * jsval)))
    : list (string * jsval) :=
  (λ node, (node.1, JObj node.2)) <$> nodes.

(** A queue after [set("A", 3)] and [set("B", 1)]. *)
Definition sample_queue : PriorityQueue :=
  Queue ({[ "B" ]} ∪ ({[ "A" ]} ∪ ∅)) [Entry "B" 1; Entry "A" 3].

(** * Properties *)

(** ** Numbers *)

Module NumberFacts.

(** Below [2 ^ 53] nothing is rounded. *)
Lemma nearest_small z : z < 2 ^ 53 → nearest z = z.
Proof.
  intros Hz. unfold nearest.
  destruct (Z.leb_spec (Z.log2 z - 52) 0) as [_ | He]; [done|].
  assert (0 < z) as Hpos.
  { destruct (Z.le_gt_cases z 0) as [Hle|]; [|done].
    rewrite (Z.log2_nonpos z Hle) in He. lia. }
  assert (53 ≤ Z.log2 z) as Hlog by lia.
  apply Z.log2_le_pow2 in Hlog; [lia|done].
Qed.

(** The significand and the grid of a number from [2 ^ 53] on. *)
Lemma nearest_grid z :
  0 < Z.log2 z - 52 →
  let e := Z.log2 z - 52 in
  ∃ q, 2 ^ 52 ≤ q ≤ 2 ^ 53 ∧ nearest z = q * 2 ^ e ∧
       (z / 2 ^ e ≤ q ≤ z / 2 ^ e + 1) ∧ 2 ^ 52 ≤ z / 2 ^ e < 2 ^ 53.
Proof.
  intros He e. assert (0 < z) as Hpos.
  { destruct (Z.le_gt_cases z 0) as [Hle|]; [|done].
    rewrite (Z.log2_nonpos z Hle) in He. lia. }
  destruct (Z.log2_spec z Hpos) as [Hlo Hhi].
  assert (0 < 2 ^ e) as HP by (apply Z.pow_pos_nonneg; lia).
  assert (2 ^ Z.log2 z = 2 ^ 52 * 2 ^ e) as Hk.
  { rewrite <-Z.pow_add_r by lia. f_equal. lia. }
  assert (2 ^ Z.succ (Z.log2 z) = 2 ^ 53 * 2 ^ e) as Hk'.
  { rewrite <-Z.pow_add_r by lia. f_equal. lia. }
  assert (2 ^ 52 ≤ z / 2 ^ e) as Hq.
  { apply Z.div_le_lower_bound; lia. }
  assert (z / 2 ^ e < 2 ^ 53) as Hq'.
  { apply Z.div_lt_upper_bound; lia. }
  unfold nearest. fold e. rewrite (proj2 (Z.leb_gt _ _)) by lia.
  destruct (_ || _).
  - exists (z / 2 ^ e). lia.
  - exists (z / 2 ^ e + 1). lia.
Qed.

Lemma nearest_bounds z :
  0 < z → 2 ^ Z.log2 z ≤ nearest z ≤ 2 ^ (Z.log2 z + 1).
Proof.
  intros Hpos. destruct (Z.log2_spec z Hpos) as [Hlo Hhi].
  destruct (Z.le_gt_cases (Z.log2 z - 52) 0) as [He | He].
  - unfold nearest. rewrite (proj2 (Z.leb_le _ _)) by done.
    change (Z.succ (Z.log2 z)) with (Z.log2 z + 1) in Hhi. lia.
  - destruct (nearest_grid z He) as (q & Hq & -> & _).
    assert (0 < 2 ^ (Z.log2 z - 52)) as HP by (apply Z.pow_pos_nonneg; lia).
    replace (2 ^ Z.log2 z) with (2 ^ 52 * 2 ^ (Z.log2 z - 52)).
    2:{ rewrite <-Z.pow_add_r by lia. f_equal. lia. }
    replace (2 ^ (Z.log2 z + 1)) with (2 ^ 53 * 2 ^ (Z.log2 z - 52)).
    2:{ rewrite <-Z.pow_add_r by lia. f_equal. lia. }
    nia.
Qed.

(** Rounding keeps the order. *)
Lemma nearest_mono a b : 0 ≤ a → a ≤ b → nearest a ≤ nearest b.
Proof.
  intros Ha Hab. destruct (decide (a = 0)) as [-> | Ha0].
  { destruct (decide (b = 0)) as [-> | Hb0]; [done|].
    change (nearest 0) with 0. pose proof (nearest_bounds b ltac:(lia)).
    pose proof (Z.pow_pos_nonneg 2 (Z.log2 b) ltac:(lia) (Z.log2_nonneg b)).
    lia. }
  pose proof (Z.log2_le_mono a b Hab) as Hlog.
  destruct (decide (Z.log2 a = Z.log2 b)) as [Heq | Hne].
  - destruct (Z.le_gt_cases (Z.log2 a - 52) 0) as [He | He].
    + unfold nearest. rewrite <-Heq.
      by rewrite (proj2 (Z.leb_le _ _)) by done.
    + set (e := Z.log2 a - 52).
      assert (0 < 2 ^ e) as HP by (apply Z.pow_pos_nonneg; lia).
      assert (0 < 2 ^ (e - 1)) as HH by (apply Z.pow_pos_nonneg; lia).
      assert (2 ^ e = 2 * 2 ^ (e - 1)) as Hdouble.
      { rewrite <-(Z.pow_succ_r 2 (e - 1)) by lia. f_equal. lia. }
      unfold nearest. rewrite <-Heq. fold e.
      rewrite (proj2 (Z.leb_gt _ _)) by done.
      pose proof (Z.div_le_mono a b (2 ^ e) HP Hab) as Hq.
      pose proof (Z.div_mod a (2 ^ e) ltac:(lia)) as Hda.
      pose proof (Z.div_mod b (2 ^ e) ltac:(lia)) as Hdb.
      pose proof (Z.mod_pos_bound a (2 ^ e) HP) as Hra.
      pose proof (Z.mod_pos_bound b (2 ^ e) HP) as Hrb.
      destruct (decide (a / 2 ^ e = b / 2 ^ e)) as [Hqq | Hqq].
      * rewrite <-Hqq in *.
        assert (a mod 2 ^ e ≤ b mod 2 ^ e) as Hr by lia.
        destruct (Z.ltb_spec (a mod 2 ^ e) (2 ^ (e - 1))),
                 (Z.ltb_spec (b mod 2 ^ e) (2 ^ (e - 1))),
                 (Z.eqb_spec (a mod 2 ^ e) (2 ^ (e - 1))),
                 (Z.eqb_spec (b mod 2 ^ e) (2 ^ (e - 1))),
                 (Z.even (a / 2 ^ e)); cbn; nia.
      * assert (a / 2 ^ e + 1 ≤ b / 2 ^ e) as Hlt by lia.
        destruct (_ || _), (_ || _); nia.
  - assert (Z.log2 a + 1 ≤ Z.log2 b) as Hlt by lia.
    pose proof (nearest_bounds a ltac:(lia)) as [_ Hua].
    pose proof (nearest_bounds b ltac:(lia)) as [Hlb _].
    pose proof (Z.pow_le_mono_r 2 _ _ ltac:(lia) Hlt). lia.
Qed.

(** A double is not rounded again. *)
Lemma nearest_idem z : 0 ≤ z → nearest (nearest z) = nearest z.
Proof.
  intros Hz. destruct (Z.le_gt_cases (Z.log2 z - 52) 0) as [He | He].
  { unfold nearest at 2. by rewrite (proj2 (Z.leb_le _ _)) by done. }
  destruct (nearest_grid z He) as (q & [Hq Hq'] & Hn & _). rewrite Hn.
  set (e := Z.log2 z - 52) in *.
  assert (0 < 2 ^ e) as HP by (apply Z.pow_pos_nonneg; lia).
  assert (∀ q' e', 2 ^ 52 ≤ q' < 2 ^ 53 → 0 < e' →
                   nearest (q' * 2 ^ e') = q' * 2 ^ e') as Hfix.
  { intros q' e' Hq'' He'.
    assert (0 < 2 ^ e') as HP' by (apply Z.pow_pos_nonneg; lia).
    assert (0 < 2 ^ (e' - 1)) as HH by (apply Z.pow_pos_nonneg; lia).
    assert (Z.log2 (q' * 2 ^ e') = 52 + e') as Hlog.
    { apply Z.log2_unique; [lia|].
      rewrite Z.pow_succ_r, !Z.pow_add_r by lia. nia. }
    unfold nearest. rewrite Hlog. replace (52 + e' - 52) with e' by lia.
    rewrite (proj2 (Z.leb_gt _ _)) by done.
    rewrite Z.div_mul, Z.mod_mul by lia.
    by rewrite (proj2 (Z.ltb_lt _ _)) by done. }
  destruct (decide (q = 2 ^ 53)) as [-> | Hne].
  - replace (2 ^ 53 * 2 ^ e) with (2 ^ 52 * 2 ^ (e + 1)).
    + apply Hfix; lia.
    + rewrite Z.pow_add_r by lia. lia.
  - apply Hfix; lia.
Qed.

Lemma nearest_nonneg z : 0 ≤ z → 0 ≤ nearest z.
Proof. intros Hz. by apply (nearest_mono 0 z). Qed.

Lemma double_nonneg z : 0 ≤ z → double z = Z.min (nearest z) Infinity.
Proof.
  intros Hz. unfold double. destruct (decide (z = 0)) as [-> | Hne]; [done|].
  rewrite Z.sgn_pos, Z.abs_eq by lia. lia.
Qed.

Lemma double_opp z : double (- z) = - double z.
Proof. unfold double. rewrite Z.sgn_opp, Z.abs_opp. lia. Qed.

(** Up to [2 ^ 53], either way, the sum is exact. *)
Lemma double_exact z : Z.abs z ≤ 2 ^ 53 → double z = z.
Proof.
  assert (∀ z, 0 ≤ z ≤ 2 ^ 53 → double z = z) as Hpos.
  { clear z. intros z Hz. rewrite double_nonneg by lia.
    assert (nearest z = z) as ->.
    { destruct (decide (z = 2 ^ 53)) as [-> | Hne]; [done|].
      apply nearest_small. lia. }
    assert (2 ^ 53 ≤ Infinity) by done. lia. }
  intros Hz. destruct (Z.le_gt_cases 0 z) as [Hle | Hgt].
  - apply Hpos. lia.
  - remember (- z) as y eqn:Hy. assert (z = - y) as -> by lia.
    rewrite double_opp, Hpos; lia.
Qed.

Lemma double_mono a b : a ≤ b → double a ≤ double b.
Proof.
  assert (∀ z, 0 ≤ z → 0 ≤ double z) as Hsign.
  { intros z Hz. rewrite double_nonneg by done.
    pose proof (nearest_nonneg z Hz). assert (0 ≤ Infinity) by done. lia. }
  assert (∀ a b, 0 ≤ a → a ≤ b → double a ≤ double b) as Hpos.
  { clear a b. intros a b Ha Hab. rewrite !double_nonneg by lia.
    pose proof (nearest_mono a b Ha Hab). lia. }
  intros Hab. destruct (Z.le_gt_cases 0 a) as [Ha | Ha].
  - by apply Hpos.
  - destruct (Z.le_gt_cases 0 b) as [Hb | Hb].
    + pose proof (Hsign b Hb). pose proof (Hsign (- a) ltac:(lia)) as Hs.
      rewrite double_opp in Hs. lia.
    + pose proof (Hpos (- b) (- a) ltac:(lia) ltac:(lia)) as Hm.
      rewrite !double_opp in Hm. lia.
Qed.

Lemma double_idem z : double (double z) = double z.
Proof.
  assert (∀ z, 0 ≤ z → double (double z) = double z) as Hpos.
  { clear z. intros z Hz. rewrite (double_nonneg z Hz).
    pose proof (nearest_nonneg z Hz) as Hn.
    assert (0 ≤ Infinity) as Hinf by done.
    rewrite double_nonneg by lia.
    destruct (Z.min_spec (nearest z) Infinity) as [[? ->] | [? ->]].
    - rewrite nearest_idem by done. lia.
    - by vm_compute. }
  destruct (Z.le_gt_cases 0 z) as [Hle | Hgt]; [by apply Hpos|].
  remember (- z) as y eqn:Hy. assert (z = - y) as -> by lia.
  by rewrite !double_opp, Hpos by lia.
Qed.

Lemma double_fixed_nonneg a c : double a = a → 0 ≤ c → a ≤ double (a + c).
Proof. intros Ha Hc. rewrite <-Ha at 1. apply double_mono. lia. Qed.

(** A sum of numbers that are not negative is exact when it comes out below
    [2 ^ 53]. *)
Lemma double_below z : 0 ≤ z → double z < 2 ^ 53 → double z = z.
Proof.
  intros Hz Hd. apply double_exact. rewrite Z.abs_eq by done.
  destruct (Z.le_gt_cases z (2 ^ 53)) as [|Hgt]; [done|].
  pose proof (double_mono (2 ^ 53) z ltac:(lia)) as Hm.
  rewrite (double_exact (2 ^ 53)) in Hm by done. lia.
Qed.

End NumberFacts.

(** ** The example of the specification *)

Example example_path :
  path example_graph "A" "C" JUndefined = Some (Normal (RPath ["A"; "B"; "C"])).
Proof. vm_compute. reflexivity. Qed.

Example example_cost :
  path example_graph "A" "C" (JObj [("cost", JBool true)])
  = Some (Normal (RObject (Some ["A"; "B"; "C"]) 2)).
Proof. vm_compute. reflexivity. Qed.

(** The sum [2 ^ 53 + 2 + 1] comes out as [2 ^ 53 + 4], which is not below
    the cost of the edge from ["A"] to ["C"]: the code keeps that edge. *)
Example tie_path :
  path tie_graph "A" "C" (JObj [("cost", JBool true)])
  = Some (Normal (RObject (Some ["A"; "C"]) (2 ^ 53 + 4))).
Proof. vm_compute. reflexivity. Qed.

(** ** The frontier *)

Module FrontierFacts.
Import PriorityQueue.

Lemma place_perm e l : place e l ≡ₚ e :: l.
Proof.
  induction l as [|x r IH]; simpl; [done|].
  destruct (priority e <=? priority x); [done|].
  rewrite IH. apply Permutation_swap.
Qed.

Lemma sorted_perm l : sorted l ≡ₚ l.
Proof.
  induction l as [|x r IH]; simpl; [done|].
  by rewrite place_perm, IH.
Qed.

Lemma find_Some k l e : find k l = Some e → e ∈ l ∧ key e = k.
Proof.
  induction l as [|x r IH]; simpl; [done|].
  case_decide.
  - intros [= <-]. split; [left | done].
  - intros [? ?]%IH. split; [by right | done].
Qed.

Lemma find_None k (l : list entry) : find k l = None → k ∉ (key <$> l).
Proof.
  induction l as [|x r IH]; simpl.
  - intros _. apply not_elem_of_nil.
  - case_decide; [done|]. intros ?%IH.
    rewrite not_elem_of_cons. by split.
Qed.

Lemma reprioritise_key k p e : key (reprioritise k p e) = key e.
Proof. unfold reprioritise. by case_decide. Qed.

Lemma keys_reprioritise k p (l : list entry) :
  key <$> (reprioritise k p <$> l) = key <$> l.
Proof.
  rewrite <-list_fmap_compose. apply list_fmap_ext.
  intros _ e _. apply reprioritise_key.
Qed.

Lemma wf_new : frontier_wf new.
Proof.
  split; simpl; [constructor|]. intros k. set_solver.
Qed.

(** What [set] leaves in the queue: the entry just written, and the
    entries of the other keys. *)
Lemma set_spec k p q q' :
  frontier_wf q → set k (Some p) q = Normal q' →
  frontier_wf q' ∧
  (∀ e, e ∈ _queue q' ↔ e = Entry k p ∨ (e ∈ _queue q ∧ key e ≠ k)) ∧
  (∀ k', k' ∈ _keys q' ↔ k' = k ∨ k' ∈ _keys q).
Proof.
  intros [Hnd Hk] [= <-]. case_decide as Hin; simpl.
  - split; [split|split]; simpl.
    + by rewrite sorted_perm, keys_reprioritise.
    + intros k'. by rewrite sorted_perm, keys_reprioritise.
    + intros e. rewrite sorted_perm, list_elem_of_fmap. split.
      * intros (e0 & -> & He0). unfold reprioritise.
        case_decide as Hkey; [left; by rewrite Hkey | right; done].
      * intros [-> | [He Hne]].
        -- apply Hk, list_elem_of_fmap in Hin as (e0 & -> & He0).
           exists e0. split; [|done]. unfold reprioritise.
           by rewrite decide_True.
        -- exists e. split; [|done]. unfold reprioritise.
           by rewrite decide_False.
    + intros k'. split; [by right|]. by intros [-> | ?].
  - split; [split|split]; simpl.
    + rewrite sorted_perm, fmap_app. simpl.
      rewrite Permutation_app_comm. simpl. constructor; [|done].
      by rewrite <-Hk.
    + intros k'. rewrite sorted_perm, fmap_app, elem_of_union, elem_of_app.
      simpl. rewrite list_elem_of_singleton, elem_of_singleton, Hk. tauto.
    + intros e. rewrite sorted_perm, elem_of_app, list_elem_of_singleton.
      split.
      * intros [He | ->]; [right | by left]. split; [done|].
        intros <-. apply Hin, Hk, list_elem_of_fmap. eauto.
      * intros [-> | [? _]]; [by right | by left].
    + intros k'. rewrite elem_of_union, elem_of_singleton. tauto.
Qed.

Lemma next_spec q node q' :
  frontier_wf q → next q = Normal (node, q') →
  frontier_wf q' ∧ _queue q = node :: _queue q' ∧ (key node ∉ key <$> _queue q') ∧
  (∀ k, k ∈ _keys q' ↔ k ∈ _keys q ∧ k ≠ key node).
Proof.
  intros [Hnd Hk]. unfold next. destruct (_queue q) as [|e rest] eqn:Hq; [done|].
  intros [= <- <-]. simpl in *. apply NoDup_cons in Hnd as [Hfresh Hnd].
  split; [split|]; simpl; [done| |split; [done|split; [done|]]].
  - intros k. rewrite elem_of_difference, elem_of_singleton, Hk, elem_of_cons.
    split; [intros [[?|?] ?]; done|]. intros ?. split; [by right|].
    by intros ->.
  - intros k. by rewrite elem_of_difference, elem_of_singleton.
Qed.

Lemma isEmpty_false q : isEmpty q = false → ∃ node q', next q = Normal (node, q').
Proof.
  unfold isEmpty, next. destruct (_queue q); [|eauto].
  by rewrite bool_decide_eq_false.
Qed.

Lemma has_get q k :
  frontier_wf q → has k q = true → ∃ e, get k q = Some e ∧ e ∈ _queue q ∧ key e = k.
Proof.
  intros [_ Hk]. unfold has, get. rewrite bool_decide_eq_true, Hk.
  intros Hin. destruct (find k (_queue q)) as [e|] eqn:Hf.
  - apply find_Some in Hf as [? ?]. eauto.
  - by apply find_None in Hf.
Qed.

End FrontierFacts.

Lemma map_get_Some {V} (m : Map V) k v : map_get m k = Some v → (k, v) ∈ m.
Proof.
  induction m as [|[k' v'] m IH]; simpl; [done|].
  case_decide as Hk.
  - intros [= ->]. subst. left.
  - intros ?%IH. by right.
Qed.

Lemma flat_elem graph k v :
  flat graph = true → (k, v) ∈ graph →
  ∃ m, v = VMap m ∧ ∀ k' v', (k', v') ∈ m → ∃ c, v' = VNum c.
Proof.
  unfold flat. rewrite forallb_forall. intros Hflat Hin%list_elem_of_In.
  apply Hflat in Hin. simpl in Hin. destruct v as [c|m]; [done|].
  exists m. split; [done|]. intros k' v' Hin'%list_elem_of_In.
  rewrite forallb_forall in Hin. apply Hin in Hin'. unfold number_leaf in Hin'.
  simpl in Hin'. destruct v'; [by eexists | done].
Qed.

Lemma nonneg_costs_edge graph u v c :
  nonneg_costs graph = true → edge graph u v c → 0 ≤ c.
Proof.
  unfold nonneg_costs. rewrite forallb_forall.
  intros Hnn (m & Hu%map_get_Some%list_elem_of_In & Hin%list_elem_of_In).
  apply Hnn in Hu. simpl in Hu. rewrite forallb_forall in Hu.
  apply Hu in Hin. unfold nonneg_leaf in Hin. simpl in Hin. lia.
Qed.

Lemma edge_target graph u v c : edge graph u v c → v ∈ targets graph.
Proof.
  intros (m & Hm%map_get_Some & Hin). unfold targets.
  apply list_elem_of_In, in_flat_map. exists (u, VMap m).
  split; [by apply list_elem_of_In|]. simpl.
  apply list_elem_of_In, list_elem_of_fmap. by exists (v, VNum c).
Qed.

(** ** The invariant of the relaxation loop *)

Section query.
Import PriorityQueue FrontierFacts.

Variable graph : Graph.
Variable start : string.
Variable goal : string.

Lemma reached_insert prev taken e k v :
  k ≠ key e → reached graph start prev taken e → reached graph start (<[k:=v]> prev) taken e.
Proof.
  intros Hk [? | (p & c & ? & ? & ? & ?)]; [by left|]. right.
  exists p, c. by rewrite lookup_insert_ne.
Qed.

Lemma settled_insert prev taken k v :
  k ∉ key <$> taken → settled graph start prev taken →
  settled graph start (<[k:=v]> prev) taken.
Proof.
  induction taken as [|e taken IH]; simpl; [done|].
  rewrite not_elem_of_cons. intros [Hk Hin] (Hr & Hfresh & Hs).
  split; [|split; [done | by apply IH]].
  apply reached_insert; [done|done].
Qed.

Lemma settled_NoDup prev taken : settled graph start prev taken → NoDup (key <$> taken).
Proof.
  induction taken as [|e taken IH]; simpl; [constructor|].
  intros (_ & ? & ?). constructor; [done | by apply IH].
Qed.

Lemma settled_start prev taken :
  settled graph start prev taken → taken ≠ [] → start ∈ key <$> taken.
Proof.
  induction taken as [|e taken IH]; simpl; [done|].
  intros ([[-> ->] | (p & c & Hp & _)] & _ & Hs) _; [left|].
  right. apply IH; [done|]. intros ->. by apply elem_of_nil in Hp.
Qed.

Lemma reached_universe prev taken e :
  reached graph start prev taken e → key e ∈ start :: targets graph.
Proof.
  intros [[_ ->] | (p & c & _ & _ & ?%edge_target & _)]; [left | by right].
Qed.

Lemma settled_universe prev taken e :
  settled graph start prev taken → e ∈ taken → key e ∈ start :: targets graph.
Proof.
  induction taken as [|e' taken IH]; simpl; [by intros _ ?%elem_of_nil|].
  intros (Hr & _ & Hs) [-> | ?]%elem_of_cons; [|by apply IH].
  by eapply reached_universe.
Qed.

Lemma settled_length prev taken :
  settled graph start prev taken → (length taken ≤ S (length (targets graph)))%nat.
Proof.
  intros Hs.
  assert (key <$> taken ⊆+ start :: targets graph) as Hsub.
  { apply NoDup_submseteq; [by eapply settled_NoDup|].
    intros k (e & -> & He)%list_elem_of_fmap. by eapply settled_universe. }
  apply submseteq_length in Hsub. by rewrite length_fmap in Hsub.
Qed.

Lemma invariant_seeded st : seeded start = Normal st → invariant graph start [] st.
Proof.
  unfold seeded. destruct (set start (Some 0) new) as [fr|] eqn:Hset; [|done].
  intros [= <-]. apply set_spec in Hset as (Hwf & Hq & _); [|apply wf_new].
  split; simpl; [|done| |done| |done].
  - intros k. split; [by intros ?%elem_of_empty | by intros ?%elem_of_nil].
  - intros e He. apply Hq in He. destruct He as [He | [He _]].
    + left. by subst.
    + by apply elem_of_nil in He.
  - intros e _. apply not_elem_of_empty.
Qed.

(** Taking the head of the frontier, and marking it explored. *)
Lemma invariant_next taken st node fr :
  invariant graph start taken st → next (frontier st) = Normal (node, fr) →
  invariant graph start (node :: taken)
    (Search ({[key node]} ∪ explored st) fr (previous st)).
Proof.
  intros [Hex Hs Hfr Hwf Hfresh Hst] Hnext.
  apply next_spec in Hnext as (Hwf' & Hq & Hnode & _); [|done].
  assert (node ∈ _queue (frontier st)) as Hin by (rewrite Hq; left).
  split; simpl.
  - intros k. rewrite elem_of_union, elem_of_singleton, elem_of_cons, Hex.
    tauto.
  - split; [by apply Hfr|split; [|done]]. rewrite <-Hex. by apply Hfresh.
  - intros e He.
    assert (e ∈ _queue (frontier st)) as He' by (rewrite Hq; by right).
    destruct (Hfr e He') as [[-> ->] | (p & c & ? & ?)].
    + destruct (Hfr node Hin) as [[_ ->] | (p & _ & []%elem_of_nil & _)].
      destruct Hnode. apply list_elem_of_fmap. by exists (Entry start 0).
    + right. exists p, c. split; [by right | done].
  - done.
  - intros e He. rewrite elem_of_union, elem_of_singleton.
    intros [Hk | Hk].
    + apply Hnode. rewrite <-Hk. apply list_elem_of_fmap. eauto.
    + eapply Hfresh; [|done]. rewrite Hq. by right.
  - done.
Qed.

(** Writing [_node] into the frontier with the priority that the edge from
    [node] gives, and pointing it back to [node]. *)
Lemma invariant_set taken st node m _node c fr :
  invariant graph start taken st → node ∈ taken → _node ∉ explored st →
  map_get graph (key node) = Some (VMap m) → (_node, VNum c) ∈ m →
  set _node (Some (double (priority node + c))) (frontier st) = Normal fr →
  invariant graph start taken
    (Search (explored st) fr (<[_node := key node]> (previous st))).
Proof.
  intros [Hex Hs Hfr Hwf Hfresh Hst] Hnode Hnew Hm Hin Hset.
  apply set_spec in Hset as (Hwf' & Hq & _); [|done].
  assert (_node ∉ key <$> taken) as Hnew' by by rewrite <-Hex.
  split; simpl.
  - done.
  - by apply settled_insert.
  - intros e He. apply Hq in He. destruct He as [-> | [He Hne]].
    + right. exists node, c. simpl. rewrite lookup_insert_eq.
      split; [done|split; [done|split; [|done]]]. by exists m.
    + apply reached_insert; [done | by apply Hfr].
  - done.
  - intros e He. apply Hq in He. destruct He as [-> | [He Hne]]; [done|].
    by apply Hfresh.
  - rewrite lookup_insert_ne; [done|]. intros ->. apply Hnew'.
    eapply settled_start; [done|]. intros ->. by apply elem_of_nil in Hnode.
Qed.

Lemma relax_spec taken st node m neighbor :
  invariant graph start taken st → node ∈ taken →
  map_get graph (key node) = Some (VMap m) → neighbor ∈ m →
  match relax node st neighbor with
  | Normal st' => invariant graph start taken st'
  | Throw e => e = PriorityNotANumber ∧ ∃ m', neighbor.2 = VMap m'
  end.
Proof.
  intros Hinv Hnode Hm Hin. destruct neighbor as [_node _cost].
  unfold relax. case_decide as Hex; [done|].
  destruct (has _node (frontier st)) eqn:Hhas; cbn.
  - destruct (has_get (frontier st) _node (inv_wf _ _ _ _ Hinv) Hhas)
      as (element & -> & _).
    destruct _cost as [c|m']; cbn; [|done].
    destruct (double (priority node + c) <? priority element); [|done].
    destruct (set _ _ _) as [fr|] eqn:Hset; [|done]. cbn.
    by eapply invariant_set.
  - destruct _cost as [c|m']; cbn; [|unfold set; cbn; eauto].
    destruct (set _ _ _) as [fr|] eqn:Hset; [|done]. cbn.
    by eapply invariant_set.
Qed.

Lemma forEach_relax_spec taken node m neighbors st :
  invariant graph start taken st → node ∈ taken →
  map_get graph (key node) = Some (VMap m) → neighbors ⊆ m →
  match forEach (relax node) neighbors st with
  | Normal st' => invariant graph start taken st'
  | Throw e => e = PriorityNotANumber ∧ ∃ k m', (k, VMap m') ∈ m
  end.
Proof.
  intros Hinv Hnode Hm. revert st Hinv.
  induction neighbors as [|nb neighbors IH]; intros st Hinv Hsub; simpl; [done|].
  assert (nb ∈ m) as Hnb by (apply Hsub; left).
  pose proof (relax_spec _ _ _ _ _ Hinv Hnode Hm Hnb) as Hr.
  destruct (relax node st nb) as [st'|e]; simpl.
  - apply IH; [done|]. intros x ?. apply Hsub. by right.
  - destruct Hr as [-> [m' Hm']]. split; [done|]. exists nb.1, m'.
    destruct nb; simpl in *. by subst.
Qed.

(** One round of the loop on a node that is not the goal. *)
Lemma expand_spec taken st node fr :
  invariant graph start taken st → next (frontier st) = Normal (node, fr) →
  match expand graph node (Search (explored st) fr (previous st)) with
  | Normal st' => invariant graph start (node :: taken) st'
  | Throw e => flat graph = false
  end.
Proof.
  intros Hinv Hnext. pose proof (invariant_next _ _ _ _ Hinv Hnext) as Hinv'.
  unfold expand, neighbors_of. simpl.
  destruct (map_get graph (key node)) as [[c|m]|] eqn:Hm; simpl; [| |done].
  - destruct (c =? 0); simpl; [done|]. apply not_true_is_false. intros Hflat.
    apply map_get_Some in Hm.
    by destruct (flat_elem _ _ _ Hflat Hm) as (? & [=] & _).
  - pose proof (forEach_relax_spec (node :: taken) node m m _ Hinv') as Hr.
    destruct (forEach _ _ _) as [st'|e].
    + apply Hr; [left|done|done].
    + destruct Hr as (_ & k & m' & Hin); [left|done|done|].
      apply not_true_is_false. intros Hflat. apply map_get_Some in Hm.
      destruct (flat_elem _ _ _ Hflat Hm) as (? & [= <-] & Hleaf).
      by apply Hleaf in Hin as [? ?].
Qed.

Lemma walk_settled prev taken e :
  settled graph start prev taken → prev !! start = None → e ∈ taken →
  ∃ l, chain graph start l (key e) (priority e) ∧
       (∀ fuel, (length l < fuel)%nat → walk fuel prev (key e) = Some l) ∧
       NoDup l ∧
       (∀ n, n ∈ l → n ∈ key <$> taken ∧ is_Some (prev !! n)).
Proof.
  intros Hs Hst. revert e.
  induction taken as [|e' taken IH]; intros e He; [by apply elem_of_nil in He|].
  destruct Hs as (Hr & Hfresh & Hs). specialize (IH Hs).
  apply elem_of_cons in He as [-> | He].
  - destruct Hr as [[_ ->] | (p & c & Hp & Hprev & Hedge & Hprio)].
    + exists []. split; [constructor|]. split; [|split; [constructor|]].
      * intros [|fuel] ?; [lia|]. simpl. by rewrite Hst.
      * by intros n ?%elem_of_nil.
    + destruct (IH p Hp) as (l & Hchain & Hwalk & Hnd & Hl).
      exists (key e' :: l). rewrite Hprio. split; [by econstructor|].
      split; [|split].
      * intros [|fuel] Hlen; simpl in *; [lia|].
        rewrite Hprev, Hwalk; [done | lia].
      * constructor; [|done]. intros Hin. by apply Hfresh, Hl.
      * intros n [-> | Hn]%elem_of_cons.
        -- split; [left | by rewrite Hprev].
        -- destruct (Hl n Hn). split; [by right | done].
  - destruct (IH e He) as (l & Hchain & Hwalk & Hnd & Hl).
    exists l. split; [done|]. split; [done|]. split; [done|].
    intros n Hn. destruct (Hl n Hn). split; [by right | done].
Qed.

Lemma length_le_size (prev : gmap string string) (l : list string) :
  NoDup l → (∀ n, n ∈ l → is_Some (prev !! n)) → (length l ≤ size prev)%nat.
Proof.
  intros Hnd Hl. rewrite <-size_dom, <-(size_list_to_set (C:=gset string) l); [|done].
  apply subseteq_size. intros n Hn%elem_of_list_to_set.
  by apply elem_of_dom, Hl.
Qed.

Lemma loop_spec fuel taken st :
  invariant graph start taken st →
  (2 + length (targets graph) ≤ fuel + length taken)%nat →
  ∃ c, loop fuel graph goal st = Some c ∧
       match c with
       | Normal (path, totalCost) => outcome graph start goal path totalCost
       | Throw _ => flat graph = false
       end.
Proof.
  revert taken st. induction fuel as [|fuel IH]; intros taken st Hinv Hfuel.
  { pose proof (settled_length _ _ (inv_settled _ _ _ _ Hinv)). lia. }
  cbn [loop]. destruct (isEmpty (frontier st)) eqn:Hempty.
  { eexists. split; [done|]. by left. }
  apply isEmpty_false in Hempty as (node & fr & Hnext). rewrite Hnext.
  case_decide as Hgoal; cbn [previous explored frontier].
  - pose proof (invariant_next _ _ _ _ Hinv Hnext) as Hinv'.
    destruct (walk_settled (previous st) (node :: taken) node)
      as (l & Hchain & Hwalk & Hnd & Hl);
      [apply (inv_settled _ _ _ _ Hinv')|apply (inv_start _ _ _ _ Hinv)|left|].
    rewrite Hgoal in *.
    assert (start ∉ l) as Hstart.
    { intros [_ [? Hp]]%Hl. by rewrite (inv_start _ _ _ _ Hinv) in Hp. }
    rewrite Hwalk.
    + eexists. split; [done|]. cbn. destruct l as [|x l'].
      * left. split; [done|]. by inversion Hchain.
      * right. assert (x = goal) as -> by (by inversion Hchain).
        by exists l'.
    + pose proof (length_le_size (previous st) l Hnd) as Hlen.
      apply Nat.lt_succ_r, Hlen. intros n Hn. by apply Hl.
  - pose proof (expand_spec _ _ _ _ Hinv Hnext) as Hexp.
    destruct (expand _ _ _) as [st'|e]; [|eauto].
    apply (IH (node :: taken)); [done|]. simpl. lia.
Qed.

Lemma loop_mono fuel fuel' st c :
  loop fuel graph goal st = Some c → (fuel ≤ fuel')%nat →
  loop fuel' graph goal st = Some c.
Proof.
  revert fuel' st. induction fuel as [|fuel IH]; intros fuel' st; [done|].
  destruct fuel' as [|fuel']; [lia|]. intros Hloop Hle. revert Hloop.
  cbn [loop]. destruct (isEmpty _); [done|].
  destruct (next _) as [[node fr]|]; [|done].
  case_decide; [done|]. destruct (expand _ _ _); [|done].
  intros ?. apply IH; [done|lia].
Qed.

(** [route] grows at its far end. *)
Lemma route_snoc r d p n c :
  route graph r d → last r = Some p → edge graph p n c →
  route graph (r ++ [n]) (d + c).
Proof.
  intros Hr. revert p. induction Hr as [u|u v r c' d He Hr IH]; intros p Hlast Hedge.
  - injection Hlast as ->. simpl.
    replace (0 + c) with (c + 0) by lia. constructor; [done|constructor].
  - simpl. replace (c' + d + c) with (c' + (d + c)) by lia.
    constructor; [done|]. by apply (IH p).
Qed.

(** So does [travel], and its sum is the code's. *)
Lemma travel_snoc a r d p n c :
  travel graph a r d → last r = Some p → edge graph p n c →
  travel graph a (r ++ [n]) (double (d + c)).
Proof.
  intros Hr. revert p.
  induction Hr as [a u|a u v r c' d He Hr IH]; intros p Hlast Hedge.
  - injection Hlast as ->. simpl. constructor 2 with c; [done|constructor].
  - simpl. constructor 2 with c'; [done|]. by apply (IH p).
Qed.

(** The pairs of a [travel] are those of a [route]. *)
Lemma travel_route a p d : travel graph a p d → ∃ d', route graph p d'.
Proof.
  induction 1 as [a u|a u v r c d He _ [d' IH]].
  - eexists. constructor.
  - eexists. by constructor.
Qed.

(** A chain, read from its far end, is a route from [start], and its sum
    is the one made along that route. *)
Lemma chain_travel l n d :
  chain graph start l n d →
  travel graph 0 (reverse (l ++ [start])) d ∧
  last (reverse (l ++ [start])) = Some n.
Proof.
  induction 1 as [|l p n d c Hc [IHr IHl] He].
  - split; [constructor|done].
  - simpl. rewrite reverse_cons. split; [by eapply travel_snoc|].
    by rewrite last_snoc.
Qed.
End query.

(** ** The query as a whole *)

Lemma seeded_Normal start :
  seeded start
  = Normal (Search ∅ (Queue ({[start]} ∪ ∅) [Entry start 0]) ∅).
Proof.
  unfold seeded, PriorityQueue.set, PriorityQueue.new. cbn.
  rewrite decide_False; [done|]. apply not_elem_of_empty.
Qed.


(** On a graph with nodes the search is the same for all options and for
    all sufficient fuel; the options only shape what it found. *)
Lemma path_within_spec graph start goal :
  graph ≠ [] →
  ∃ c,
    (∀ fuel options, (2 + length (targets graph) ≤ fuel)%nat →
       path_within fuel graph start goal options
       = Some ('(p, d) ← c; Normal (shape (defaulted options) start p d))) ∧
    match c with
    | Normal (p, d) => outcome graph start goal p d
    | Throw _ => flat graph = false
    end.
Proof.
  intros Hne.
  destruct (loop_spec graph start goal (2 + length (targets graph)) []
              (Search ∅ (Queue ({[start]} ∪ ∅) [Entry start 0]) ∅))
    as (c & Hloop & Hc).
  { apply invariant_seeded, seeded_Normal. }
  { simpl. lia. }
  exists c. split; [|done]. intros fuel options Hfuel.
  unfold path_within. rewrite bool_decide_eq_false_2 by by destruct graph.
  rewrite seeded_Normal.
  by rewrite (loop_mono graph goal _ fuel _ _ Hloop Hfuel).
Qed.

(** The fuel of [path] is enough, and more fuel changes nothing. *)
Lemma path_within_enough fuel graph start goal options :
  (2 + length (targets graph) ≤ fuel)%nat →
  path_within fuel graph start goal options = path graph start goal options.
Proof.
  intros Hfuel. destruct graph as [|kv graph]; [done|].
  destruct (path_within_spec (kv :: graph) start goal) as (c & Hc & _); [done|].
  unfold path. by rewrite !Hc.
Qed.

Lemma shape_nil options start d :
  shape (defaulted options) start [] d = no_path options.
Proof. done. Qed.

Lemma shape_cons options start x l d :
  shape (defaulted options) start (x :: l) d
  = let path :=
      if property (defaulted options) "trim" then l else (x :: l) ++ [start] in
    let path :=
      if property (defaulted options) "reverse" then path else reverse path in
    if property (defaulted options) "cost" then RObject (Some path) d
    else RPath path.
Proof.
  unfold shape. cbn [length bool_decide decide_rel tail].
  rewrite bool_decide_eq_false_2 by done.
  by destruct (property _ "reverse").
Qed.

Lemma result_path_shape_cons options start x l d :
  is_Some (result_path (shape (defaulted options) start (x :: l) d)).
Proof.
  rewrite shape_cons. cbn zeta. by destruct (property _ "cost").
Qed.

(** [path] always returns or throws. *)
Lemma path_total graph start goal options :
  ∃ c, path graph start goal options = Some c.
Proof.
  destruct graph as [|kv graph]; [by eexists|].
  destruct (path_within_spec (kv :: graph) start goal) as (c & Hc & _); [done|].
  unfold path. rewrite Hc by done. by eexists.
Qed.

(** A call that returns an array found a chain of back-pointers from the
    goal, and every call with the same graph and end points shapes that
    same chain. *)
Lemma path_found graph start goal options r p :
  path graph start goal options = Some (Normal r) → result_path r = Some p →
  ∃ l d,
    chain graph start (goal :: l) goal d ∧ NoDup (goal :: l) ∧
    (start ∉ goal :: l) ∧
    ∀ options',
      path graph start goal options'
      = Some (Normal (shape (defaulted options') start (goal :: l) d)).
Proof.
  destruct graph as [|kv graph].
  { intros [= <-]. unfold no_path. by destruct (property _ _). }
  destruct (path_within_spec (kv :: graph) start goal) as (c & Hc & Hout); [done|].
  unfold path. rewrite Hc by done.
  destruct c as [[raw d]|e]; [|done]. cbn. intros [= <-].
  destruct Hout as [[-> ->] | (l & -> & Hchain & Hnd & Hstart)].
  { rewrite shape_nil. unfold no_path. by destruct (property _ _). }
  intros _. exists l, d. split; [done|]. split; [done|]. split; [done|].
  intros options'. by rewrite Hc.
Qed.

(** A call that returns "no path" returns it in the shape that [cost] asks
    for. *)
Lemma path_not_found graph start goal options r :
  path graph start goal options = Some (Normal r) → result_path r = None →
  r = no_path options.
Proof.
  destruct graph as [|kv graph]; [by intros [= <-]|].
  destruct (path_within_spec (kv :: graph) start goal) as (c & Hc & _); [done|].
  unfold path. rewrite Hc by done.
  destruct c as [[[|x raw] d]|e]; cbn; [by intros [= <-]| |done].
  intros [= <-] Hnone.
  destruct (result_path_shape_cons options start x raw d) as [? Hsome].
  congruence.
Qed.

(** On a flat graph no statement of [path] throws. *)
Lemma path_flat graph start goal options :
  flat graph = true → ∃ r, path graph start goal options = Some (Normal r).
Proof.
  intros Hflat. destruct graph as [|kv graph]; [by eexists|].
  destruct (path_within_spec (kv :: graph) start goal) as (c & Hc & Hout); [done|].
  unfold path. rewrite Hc by done.
  destruct c as [[raw d]|e]; [by eexists | congruence].
Qed.

(** ** Validation of the costs *)

Lemma jsval_nested_ind (P : jsval → Prop) :
  P JUndefined → P JNull → (∀ b, P (JBool b)) → (∀ z, P (JNum z)) → P JNaN →
  (∀ s, P (JStr s)) →
  (∀ fields, Forall (λ kv, P kv.2) fields → P (JObj fields)) →
  ∀ v, P v.
Proof.
  intros Hu Hn Hb Hz Hnan Hs Hobj. fix IH 1.
  intros [| |b|z| |s|fields];
    [exact Hu|exact Hn|apply Hb|apply Hz|exact Hnan|apply Hs|].
  apply Hobj. induction fields as [|[k x] fields IHf]; constructor.
  - apply IH.
  - apply IHf.
Qed.

Section validation.
Variable StringToNumber : string → option Z.

Lemma populateValue_object fields :
  populateValue StringToNumber (JObj fields)
  = match populateMap StringToNumber [] fields with
    | (map, Normal _) => Normal (VMap map)
    | (_, Throw e) => Throw e
    end.
Proof. reflexivity. Qed.

Lemma validateNode_spec v :
  match ToNumber StringToNumber v with
  | None => validateNode StringToNumber v = Throw CostNotANumber
  | Some z =>
      if z <? 0 then validateNode StringToNumber v = Throw CostBelowZero
      else validateNode StringToNumber v = Normal z
  end.
Proof.
  unfold validateNode. destruct (ToNumber _ v) as [z|]; [|done].
  by destruct (z <? 0).
Qed.

(** [populateMap] stops at the first property that does not populate. *)
Lemma populateMap_spec (P : jsval → bool) fields :
  Forall (λ kv,
    if P kv.2 then ∃ e, populateValue StringToNumber kv.2 = Throw e ∧ InvalidCost e
    else ∃ y, populateValue StringToNumber kv.2 = Normal y) fields →
  ∀ map,
    if existsb (λ kv, P kv.2) fields
    then ∃ map' e, populateMap StringToNumber map fields = (map', Throw e)
                   ∧ InvalidCost e
    else ∃ map', populateMap StringToNumber map fields = (map', Normal tt).
Proof.
  induction 1 as [|[k x] fields Hx _ IH]; intros map; simpl in *; [by eexists|].
  destruct (P x).
  - destruct Hx as (e & -> & He). by exists map, e.
  - destruct Hx as (y & ->). apply IH.
Qed.

Lemma populateValue_leaf v :
  (∀ fields, v ≠ JObj fields) →
  if invalid_cost StringToNumber v
  then ∃ e, populateValue StringToNumber v = Throw e ∧ InvalidCost e
  else ∃ y, populateValue StringToNumber v = Normal y.
Proof.
  intros Hleaf. pose proof (validateNode_spec v) as Hv.
  destruct v; try (by destruct (Hleaf fields));
    cbn [invalid_cost populateValue];
    (destruct (ToNumber _ _) as [c|];
     [destruct (c <? 0)|]; rewrite Hv; cbn; unfold InvalidCost; eauto).
Qed.

Lemma populateValue_spec v :
  if invalid_cost StringToNumber v
  then ∃ e, populateValue StringToNumber v = Throw e ∧ InvalidCost e
  else ∃ y, populateValue StringToNumber v = Normal y.
Proof.
  induction v as [| |b|z| |s|fields IH] using jsval_nested_ind;
    try by apply populateValue_leaf.
  rewrite populateValue_object. cbn [invalid_cost].
  pose proof (populateMap_spec (invalid_cost StringToNumber) fields IH []) as Hm.
  destruct (existsb _ fields).
  - destruct Hm as (map' & e & -> & He). by exists e.
  - destruct Hm as (map' & ->). by eexists.
Qed.

Lemma populateMap_invalid map fields :
  if invalid_cost StringToNumber (JObj fields)
  then ∃ map' e, populateMap StringToNumber map fields = (map', Throw e)
                 ∧ InvalidCost e
  else ∃ map', populateMap StringToNumber map fields = (map', Normal tt).
Proof.
  apply (populateMap_spec (invalid_cost StringToNumber)). apply Forall_forall.
  intros kv _. apply populateValue_spec.
Qed.
End validation.

(** ** The graphs that the constructor and [addNode] build *)

Lemma forallb_map_set {V} (P : string * V → bool) k v (m : Map V) :
  (∀ k1 k2 x, P (k1, x) = P (k2, x)) →
  P (k, v) = true → forallb P m = true → forallb P (map_set k v m) = true.
Proof.
  intros Hkey Hv. induction m as [|[k' v'] m IH]; simpl.
  - by rewrite Hv.
  - intros [Hv' Hm]%andb_prop. case_decide; simpl.
    + by rewrite Hv, Hm.
    + by rewrite Hv', IH.
Qed.

Section built.
Variable StringToNumber : string → option Z.

Lemma populateValue_number x c :
  populateValue StringToNumber x = Normal (VNum c) → 0 ≤ c.
Proof.
  pose proof (validateNode_spec StringToNumber x) as Hv.
  destruct x; try (rewrite populateValue_object;
                   by destruct (populateMap _ _ _) as [? []]);
    cbn [populateValue]; destruct (ToNumber _ _) as [n|];
    try destruct (n <? 0) eqn:Hn; rewrite Hv; cbn; try done;
    intros [= <-]; lia.
Qed.

Lemma populateValue_group x m :
  populateValue StringToNumber x = Normal (VMap m) →
  ∃ fields, x = JObj fields ∧
            populateMap StringToNumber [] fields = (m, Normal tt).
Proof.
  destruct x as [| |b|z| |s|fields];
    try (cbn [populateValue]; by destruct (validateNode _ _)).
  rewrite populateValue_object.
  destruct (populateMap _ _ _) as [m' [[]|]] eqn:Hm; [|done].
  intros [= <-]. by exists fields.
Qed.

Lemma populateMap_nonneg map fields map' :
  forallb nonneg_leaf map = true →
  populateMap StringToNumber map fields = (map', Normal tt) →
  forallb nonneg_leaf map' = true.
Proof.
  revert map. induction fields as [|[k x] fields IH]; intros map Hmap; simpl.
  - by intros [= <-].
  - destruct (populateValue _ x) as [y|] eqn:Hy; [|done]. apply IH.
    apply forallb_map_set; [done| |done]. unfold nonneg_leaf. simpl.
    destruct y as [c|]; [|done]. apply populateValue_number in Hy. lia.
Qed.

(** [addNode] keeps the costs of the graph non-negative. *)
Lemma addNode_nonneg name neighbors graph graph' c :
  nonneg_costs graph = true →
  addNode StringToNumber name neighbors graph = (graph', c) →
  nonneg_costs graph' = true.
Proof.
  intros Hnn. unfold addNode.
  destruct (populateMap _ _ _) as [m [[]|e]] eqn:Hm; intros [= <- <-]; [|done].
  apply (forallb_map_set _ name (VMap m)); [done| |done]. simpl.
  by apply (populateMap_nonneg [] neighbors m).
Qed.

(** So does the constructor. *)
Lemma new_nonneg object graph :
  new_Graph StringToNumber object = Normal graph → nonneg_costs graph = true.
Proof.
  destruct object as [object|]; simpl; [|by intros [= <-]].
  destruct (populateMap _ _ _) as [m [[]|e]] eqn:Hm; intros [= <-].
  assert (∀ map map',
    nonneg_costs map = true →
    populateMap StringToNumber map object = (map', Normal tt) →
    nonneg_costs map' = true) as Hgen; [|by apply (Hgen [] m)].
  clear. induction object as [|[k x] object IH]; intros map map' Hmap; simpl.
  - by intros [= <-].
  - destruct (populateValue _ x) as [y|] eqn:Hy; [|done]. apply IH.
    apply (forallb_map_set _ k y); [done| |done]. simpl.
    destruct y as [c|m]; [done|].
    apply populateValue_group in Hy as (fields & _ & Hm).
    by apply (populateMap_nonneg [] fields m).
Qed.

Lemma populateMap_flat map fields map' c :
  plain fields = true → forallb number_leaf map = true →
  populateMap StringToNumber map fields = (map', c) →
  forallb number_leaf map' = true.
Proof.
  revert map. induction fields as [|[k x] fields IH]; intros map Hplain Hmap; simpl.
  - by intros [= <- _].
  - simpl in Hplain. apply andb_prop in Hplain as [Hx Hplain].
    destruct (populateValue _ x) as [y|] eqn:Hy; [|by intros [= <- _]].
    apply IH; [done|]. apply forallb_map_set; [done| |done].
    unfold number_leaf. simpl. destruct y as [c'|m]; [done|].
    apply populateValue_group in Hy as (? & -> & _). done.
Qed.

Lemma addNode_flat name neighbors graph graph' c :
  flat graph = true → plain neighbors = true →
  addNode StringToNumber name neighbors graph = (graph', c) →
  flat graph' = true.
Proof.
  intros Hflat Hplain. unfold addNode.
  destruct (populateMap _ _ _) as [m [[]|e]] eqn:Hm; intros [= <- <-]; [|done].
  apply (forallb_map_set _ name (VMap m)); [done| |done]. simpl.
  by apply (populateMap_flat [] neighbors m (Normal tt)).
Qed.
End built.

(** * The claims *)






(** C2 (as the code has it).  [path(start, start)] returns the "no path"
    value, whatever the graph and the options: [null], or [{ path: null,
    cost: 0 }] when the [cost] option is set. *)
Theorem path_to_itself graph start options :
  path graph start start options = Some (Normal (no_path options)).
Proof.
  destruct graph as [|kv graph]; [done|].
  unfold path, path_within.
  rewrite bool_decide_eq_false_2 by done. rewrite seeded_Normal.
  cbn [loop plus Nat.add length]. unfold PriorityQueue.isEmpty, PriorityQueue.next.
  cbn [_queue frontier length key priority previous].
  rewrite bool_decide_eq_false_2 by done. rewrite decide_True by done.
  cbn [walk]. by rewrite lookup_empty.
Qed.

(** C2, the claim as stated fails: on the example graph the result is
    neither [["A"]] nor [["A", "A"]]. *)
Lemma path_to_itself_counterexample :
  path example_graph "A" "A" JUndefined = Some (Normal RNull) ∧
  path example_graph "A" "A" with_cost = Some (Normal (RObject None 0)).
Proof. split; vm_compute; reflexivity. Qed.

(** C3.  When [path] finds a route, the result with [trim] is the result
    without it less its first and last element: it is two shorter, and
    neither [start] nor [goal] occurs in it. *)
Theorem trim_drops_both_ends graph start goal plain trimmed r p :
  property (defaulted plain) "trim" = false →
  property (defaulted trimmed) "trim" = true →
  property (defaulted trimmed) "reverse" = property (defaulted plain) "reverse" →
  property (defaulted trimmed) "cost" = property (defaulted plain) "cost" →
  path graph start goal plain = Some (Normal r) →
  result_path r = Some p →
  ∃ r' p',
    path graph start goal trimmed = Some (Normal r') ∧
    result_path r' = Some p' ∧
    (2 ≤ length p)%nat ∧ length p' = (length p - 2)%nat ∧
    (p = [start] ++ p' ++ [goal] ∨ p = [goal] ++ p' ++ [start]) ∧
    (start ∉ p') ∧ (goal ∉ p').
Proof.
  intros Hplain Htrim Hrev Hcost Hpath Hp.
  destruct (path_found _ _ _ _ _ _ Hpath Hp)
    as (l & d & _ & [Hgoal _]%NoDup_cons & [_ Hstart]%not_elem_of_cons & Hall).
  rewrite Hall in Hpath. injection Hpath as <-.
  rewrite shape_cons, Hplain in Hp. cbn zeta in Hp.
  pose proof (Hall trimmed) as Htrimmed.
  rewrite shape_cons, Htrim, Hrev, Hcost in Htrimmed. cbn zeta in Htrimmed.
  destruct (property (defaulted plain) "reverse"),
    (property (defaulted plain) "cost");
    cbn [result_path] in *; injection Hp as <-;
    (eexists _, _; split; [exact Htrimmed|]; split; [reflexivity|]);
    rewrite ?reverse_cons, ?reverse_app, ?length_app, ?length_reverse;
    cbn [length app reverse]; rewrite ?length_app, ?length_reverse;
    cbn [length]; rewrite ?elem_of_reverse;
    (split; [lia|]); (split; [lia|]); (split; [|done]);
    [by right | by right | by left | by left].
Qed.

Lemma trim_drops_both_ends_witness :
  ∃ r' p',
    path example_graph "A" "C" with_trim = Some (Normal r') ∧
    result_path r' = Some p' ∧
    (2 ≤ length ["A"; "B"; "C"])%nat ∧
    length p' = (length ["A"; "B"; "C"] - 2)%nat ∧
    (["A"; "B"; "C"] = ["A"] ++ p' ++ ["C"] ∨
     ["A"; "B"; "C"] = ["C"] ++ p' ++ ["A"]) ∧
    ("A" ∉ p') ∧ ("C" ∉ p').
Proof.
  apply (trim_drops_both_ends example_graph "A" "C" JUndefined with_trim
           (RPath ["A"; "B"; "C"]));
    vm_compute; reflexivity.
Defined.

(** C7.  With [reverse] set, [path] returns what it returns without it,
    the array reversed; this holds whether the call returns an array,
    "no path", or throws. *)
Theorem reverse_option_reverses graph start goal forward backward :
  property (defaulted forward) "reverse" = false →
  property (defaulted backward) "reverse" = true →
  property (defaulted backward) "trim" = property (defaulted forward) "trim" →
  property (defaulted backward) "cost" = property (defaulted forward) "cost" →
  path graph start goal backward
  = fmap (M:=completion) reverse_result <$> path graph start goal forward.
Proof.
  intros Hfwd Hbwd Htrim Hcost. unfold path, path_within. cbn zeta.
  rewrite Hcost. case_bool_decide.
  { cbn. destruct (property (defaulted forward) "cost"); reflexivity. }
  rewrite seeded_Normal. destruct (loop _ _ _ _) as [[[raw d]|e]|]; [|done..].
  cbn. do 2 f_equal. destruct raw as [|x raw].
  { rewrite !shape_nil. unfold no_path. rewrite Hcost.
    destruct (property (defaulted forward) "cost"); reflexivity. }
  rewrite !shape_cons, Hfwd, Hbwd, Htrim, Hcost. cbn zeta.
  destruct (property (defaulted forward) "cost"); cbn; by rewrite reverse_involutive.
Qed.

Lemma reverse_option_reverses_witness :
  path example_graph "A" "C" with_reverse
  = fmap (M:=completion) reverse_result
      <$> path example_graph "A" "C" JUndefined.
Proof.
  apply (reverse_option_reverses example_graph "A" "C" JUndefined with_reverse);
    vm_compute; reflexivity.
Defined.

Lemma property_configuration options name :
  name = "trim" ∨ name = "reverse" ∨ name = "cost" →
  property (defaulted (configuration options)) name
  = property (defaulted options) name.
Proof.
  intros [-> | [-> | ->]]; cbn;
    by destruct (property (defaulted options) _).
Qed.

(** C8 (as the code has it).  [path] does not validate [options]: a value
    of any kind is read for the truthiness of its [trim], [reverse] and
    [cost] properties and the call goes on as with the configuration object
    of these three flags.  Whether the call throws, and what, is the same
    as without options; on a flat graph it does not throw. *)
Theorem options_never_rejected graph start goal options :
  path graph start goal options
  = path graph start goal (configuration options) ∧
  error_of (path graph start goal options)
  = error_of (path graph start goal JUndefined) ∧
  (flat graph = true → error_of (path graph start goal options) = None).
Proof.
  split; [|split].
  - unfold path, path_within, shape. cbn zeta.
    by rewrite !property_configuration by eauto.
  - unfold path, path_within. cbn zeta. case_bool_decide; [done|].
    rewrite seeded_Normal. by destruct (loop _ _ _ _) as [[[raw d]|e]|].
  - intros Hflat. by destruct (path_flat graph start goal options Hflat) as [r ->].
Qed.

(** C8, the claim as stated fails: a number passed as [options] is not a
    configuration object, and the call returns the path. *)
Lemma options_never_rejected_counterexample :
  path example_graph "A" "C" (JNum 5) = Some (Normal (RPath ["A"; "B"; "C"])) ∧
  path example_graph "A" "C" (JStr "fast") = Some (Normal (RPath ["B"])).
Proof. split; vm_compute; reflexivity. Qed.

(** C10.  [shortestPath(start, goal, options)] returns what [path(start,
    goal, options)] returns; its one effect is the line that it logs, and
    the graph, which neither method writes, is as before. *)
Theorem shortestPath_is_path graph start goal options console :
  (shortestPath graph start goal options console).2
  = path graph start goal options ∧
  (shortestPath graph start goal options console).1
  = console ++ ["Graph#shortestPath is deprecated, use Graph#path instead"].
Proof. done. Qed.

Example nested_graph_new StringToNumber :
  new_Graph StringToNumber (Some [("A", JObj [("B", JObj [("C", JNum 1)])])])
  = Normal nested_graph.
Proof. reflexivity. Qed.

(** C4 (as the code has it).  On a graph without nodes, and on a flat graph
    in which no route leads from [start] to [goal], [path] returns the
    "no path" value ([null], or [{ path: null, cost: 0 }] when the [cost]
    option is set) and does not throw. *)
Theorem no_route_no_path graph start goal options :
  graph = [] ∨ (flat graph = true ∧ ¬ connected graph start goal) →
  path graph start goal options = Some (Normal (no_path options)).
Proof.
  intros [-> | [Hflat Hnone]]; [done|].
  destruct (path_flat graph start goal options Hflat) as [r Hpath].
  rewrite Hpath. do 2 f_equal.
  destruct (result_path r) as [p|] eqn:Hp; [|by eapply path_not_found].
  destruct Hnone.
  destruct (path_found _ _ _ _ _ _ Hpath Hp) as (l & d & Hchain & _).
  apply chain_travel in Hchain as [[d' Hroute]%travel_route Hlast].
  exists (reverse ((goal :: l) ++ [start])), d'.
  split; [done|]. split; [|done]. by rewrite reverse_app.
Qed.

Lemma island_not_connected : ¬ connected island_graph "A" "D".
Proof.
  intros (p & d & Hroute & Hhead & Hlast).
  assert (∀ q e, route island_graph q e → last q = Some "D" →
                 head q = Some "D") as Hback.
  { clear. induction 1 as [u|u v q c e (m & Hm & Hin) Hr IH]; [done|].
    intros Hlast. specialize (IH Hlast). injection IH as ->.
    simpl in Hm. repeat case_decide; simplify_eq;
      repeat (apply elem_of_cons in Hin as [Hin|Hin]; simplify_eq);
      by apply elem_of_nil in Hin. }
  apply Hback in Hroute; [|done]. congruence.
Qed.

Lemma no_route_no_path_witness :
  path island_graph "A" "D" with_cost = Some (Normal (RObject None 0)).
Proof.
  apply (no_route_no_path island_graph "A" "D" with_cost).
  right. split; [reflexivity | exact island_not_connected].
Defined.

(** C4, the claim as stated fails: no route leads from ["A"] to ["Z"] in
    [nested_graph], and the call throws. *)
Lemma no_route_no_path_counterexample :
  ¬ connected nested_graph "A" "Z" ∧
  path nested_graph "A" "Z" JUndefined = Some (Throw PriorityNotANumber).
Proof.
  split; [|vm_compute; reflexivity].
  intros (p & d & Hroute & Hhead & Hlast).
  destruct Hroute as [u|u v q c e (m & Hm & Hin) Hr].
  - simpl in *. congruence.
  - simpl in Hhead. injection Hhead as ->. simpl in Hm.
    injection Hm as <-. apply list_elem_of_singleton in Hin. congruence.
Qed.

(** C9 (as the code has it).  A path query terminates on every graph: the
    loop ends within [2 + length (targets graph)] rounds, one round per
    key that is taken from the frontier, and more fuel changes nothing.  On
    a flat graph it ends in one of its two final states (the goal was
    taken, or the frontier is empty), which is where it returns normally;
    otherwise it may end by throwing. *)
Theorem query_terminates graph start goal fuel st :
  seeded start = Normal st →
  (2 + length (targets graph) ≤ fuel)%nat →
  ∃ c, loop fuel graph goal st = Some c ∧
       (flat graph = true → ∃ path totalCost, c = Normal (path, totalCost)).
Proof.
  intros Hseed Hfuel.
  destruct (loop_spec graph start goal fuel [] st) as (c & Hloop & Hc).
  { by apply invariant_seeded. }
  { simpl. lia. }
  exists c. split; [done|]. intros Hflat.
  destruct c as [[path totalCost]|e]; [by eexists _, _ | congruence].
Qed.

Lemma query_terminates_witness :
  ∃ c, loop 5 example_graph "C" (Search ∅ (Queue ({[ "A" ]} ∪ ∅) [Entry "A" 0]) ∅)
       = Some c ∧
       (flat example_graph = true → ∃ path totalCost, c = Normal (path, totalCost)).
Proof.
  apply (query_terminates example_graph "A" "C" 5).
  - apply seeded_Normal.
  - simpl. lia.
Defined.

(** C9, the claim as stated fails: on [nested_graph] the loop reaches
    neither of its two final states, whatever the fuel. *)
Lemma query_terminates_counterexample :
  seeded "A" = Normal (Search ∅ (Queue ({[ "A" ]} ∪ ∅) [Entry "A" 0]) ∅) ∧
  ¬ ∃ fuel path totalCost,
      loop fuel nested_graph "Z"
        (Search ∅ (Queue ({[ "A" ]} ∪ ∅) [Entry "A" 0]) ∅)
      = Some (Normal (path, totalCost)).
Proof.
  split; [apply seeded_Normal|].
  intros ([|fuel] & path & totalCost & Hloop); [done|].
  vm_compute in Hloop. congruence.
Qed.

Lemma during_forEach start node neighbors st st' :
  during start st → forEach (relax node) neighbors st = Normal st' →
  during start st'.
Proof.
  revert st. induction neighbors as [|nb neighbors IH]; intros st Hst; simpl.
  - by intros [= <-].
  - destruct (relax node st nb) as [st1|] eqn:Hrelax; [|done]. simpl.
    apply IH. by eapply during_relax.
Qed.

(** The rounds of [loop] stay within [during]. *)
Lemma during_expand graph start st node fr st' :
  during start st →
  PriorityQueue.next (frontier st) = Normal (node, fr) →
  expand graph node (Search (explored st) fr (previous st)) = Normal st' →
  during start st'.
Proof.
  intros Hst Hnext. unfold expand. simpl.
  destruct (neighbors_of graph (key node)) as [neighbors|]; [|done]. simpl.
  apply during_forEach. by eapply during_next.
Qed.

Lemma during_wf start st : during start st → frontier_wf (frontier st).
Proof.
  induction 1 as [st Hseed|st node fr _ IH Hnext|st node [_node _cost] st' _ IH Hrelax].
  - rewrite seeded_Normal in Hseed. injection Hseed as <-. simpl.
    split; simpl; [apply NoDup_singleton|].
    intros k. rewrite list_elem_of_singleton, elem_of_union, elem_of_singleton.
    split; [intros [?|?%elem_of_empty]; done | by left].
  - by apply FrontierFacts.next_spec in Hnext as (? & _).
  - revert Hrelax. unfold relax. case_decide; [by intros [= <-]|].
    destruct (negb _).
    + destruct (PriorityQueue.set _ _ _) as [fr|] eqn:Hset; [|done].
      intros [= <-]. simpl. destruct (plus _ _) as [p|]; [|done].
      by apply FrontierFacts.set_spec in Hset as (? & _).
    + destruct (PriorityQueue.get _ _) as [element|]; [|done].
      destruct (plus _ _) as [p|]; [|by intros [= <-]].
      destruct (_ <? _); [|by intros [= <-]].
      destruct (PriorityQueue.set _ _ _) as [fr|] eqn:Hset; [|done].
      intros [= <-]. simpl.
      by apply FrontierFacts.set_spec in Hset as (? & _).
Qed.

(** No explored key is in the frontier: [relax] skips the explored keys. *)
Lemma during_fresh start st k :
  during start st → k ∈ _keys (frontier st) → k ∉ explored st.
Proof.
  intros Hst. revert k.
  induction Hst as [st Hseed|st node fr Hst IH Hnext
                   |st node [_node _cost] st' Hst IH Hrelax]; intros k.
  - rewrite seeded_Normal in Hseed. injection Hseed as <-. simpl.
    intros _. apply not_elem_of_empty.
  - apply FrontierFacts.next_spec in Hnext as (_ & _ & _ & Hkeys);
      [|by apply during_wf in Hst].
    simpl. intros [Hk Hne]%Hkeys [?%elem_of_singleton | ?]%elem_of_union; [done|].
    by apply (IH k).
  - pose proof (during_wf _ _ Hst) as Hwf.
    revert Hrelax. unfold relax. case_decide as Hex; [intros [= <-]; apply IH|].
    assert (∀ p fr, PriorityQueue.set _node (Some p) (frontier st) = Normal fr →
                    k ∈ _keys fr → k ∉ explored st) as Hset.
    { intros p fr (_ & _ & Hkeys)%FrontierFacts.set_spec [-> | Hk]%Hkeys;
        [done|by apply IH|done]. }
    destruct (negb _).
    + destruct (plus _ _) as [p|]; [|done].
      destruct (PriorityQueue.set _ _ _) as [fr|] eqn:Hfr; [|done].
      intros [= <-]. simpl. by apply (Hset p).
    + destruct (PriorityQueue.get _ _) as [element|]; [|done].
      destruct (plus _ _) as [p|]; [|intros [= <-]; apply IH].
      destruct (_ <? _); [|intros [= <-]; apply IH].
      destruct (PriorityQueue.set _ _ _) as [fr|] eqn:Hfr; [|done].
      intros [= <-]. simpl. by apply (Hset p).
Qed.

Lemma find_unique (l : list entry) e :
  NoDup (key <$> l) → e ∈ l → PriorityQueue.find (key e) l = Some e.
Proof.
  induction l as [|x l IH]; simpl; [by intros _ ?%elem_of_nil|].
  intros [Hfresh Hnd]%NoDup_cons [-> | Hin]%elem_of_cons.
  - by rewrite decide_True.
  - case_decide as Hk; [|by apply IH]. destruct Hfresh. rewrite Hk.
    apply list_elem_of_fmap. eauto.
Qed.

(** C5.  At every point of a path query the frontier (the [PriorityQueue]
    of the bundle) holds at most one entry per key; [set] with a key that
    is present keeps the number of entries and leaves that key with the new
    priority. *)
Theorem frontier_one_entry_per_key start st :
  during start st →
  NoDup (key <$> _queue (frontier st)) ∧
  ∀ k p fr,
    PriorityQueue.has k (frontier st) = true →
    PriorityQueue.set k (Some p) (frontier st) = Normal fr →
    length (_queue fr) = length (_queue (frontier st)) ∧
    PriorityQueue.get k fr = Some (Entry k p) ∧
    NoDup (key <$> _queue fr).
Proof.
  intros Hwf%during_wf. split; [apply Hwf|]. intros k p fr Hhas Hset.
  pose proof (FrontierFacts.set_spec _ _ _ _ Hwf Hset) as ([Hnd _] & Hq & _).
  split; [|split; [|done]].
  - injection Hset as <-. unfold PriorityQueue.has in Hhas.
    apply bool_decide_eq_true in Hhas. rewrite decide_True by done. simpl.
    by rewrite FrontierFacts.sorted_perm, length_fmap.
  - apply (find_unique _ (Entry k p)); [done|]. apply Hq. by left.
Qed.

Lemma frontier_one_entry_per_key_witness :
  ∃ fr,
    PriorityQueue.set "A" (Some 7) (Queue ({[ "A" ]} ∪ ∅) [Entry "A" 0])
    = Normal fr ∧
    length (_queue fr) = 1%nat ∧
    PriorityQueue.get "A" fr = Some (Entry "A" 7) ∧
    NoDup (key <$> _queue fr).
Proof.
  destruct (frontier_one_entry_per_key "A"
              (Search ∅ (Queue ({[ "A" ]} ∪ ∅) [Entry "A" 0]) ∅))
    as [_ Hset].
  - apply during_seeded, seeded_Normal.
  - eexists. split; [reflexivity|].
    apply (Hset "A" 7); vm_compute; reflexivity.
Defined.

(** C6 (as the code has it).  When [neighbors] holds, at any depth, a cost
    that [Number] turns into [NaN] or into a negative number, [addNode]
    throws one of the two errors of [validateNode] and [this.graph] is what
    it was before the call. *)
Theorem addNode_invalid_cost StringToNumber name neighbors graph :
  invalid_cost StringToNumber (JObj neighbors) = true →
  ∃ e, InvalidCost e ∧
       addNode StringToNumber name neighbors graph = (graph, Throw e).
Proof.
  intros Hinvalid. unfold addNode.
  pose proof (populateMap_invalid StringToNumber [] neighbors) as Hm.
  rewrite Hinvalid in Hm. destruct Hm as (map' & e & -> & He). by exists e.
Qed.

Lemma addNode_invalid_cost_witness :
  ∃ e, InvalidCost e ∧
       addNode (λ _, None) "A" [("B", JObj [("C", JNum (-1))])] example_graph
       = (example_graph, Throw e).
Proof.
  apply (addNode_invalid_cost (λ _, None) "A"
           [("B", JObj [("C", JNum (-1))])] example_graph).
  reflexivity.
Defined.

(** C6, the claim as stated fails: [null] and [true] are not numbers, and
    [addNode] takes them as the costs 0 and 1. *)
Lemma addNode_invalid_cost_counterexample :
  addNode (λ _, None) "A" [("B", JNull); ("C", JBool true)] []
  = ([("A", VMap [("B", VNum 0); ("C", VNum 1)])], Normal tt).
Proof. reflexivity. Qed.

(** * More properties of the code *)

(** ** [PriorityQueue] *)

Module QueueFacts.
Import PriorityQueue FrontierFacts.

Lemma place_ordered e l : ordered l → ordered (place e l).
Proof.
  unfold ordered. induction 1 as [|x r Hr IH Hx]; simpl.
  - repeat constructor.
  - destruct (priority e <=? priority x) eqn:Hle.
    + apply Z.leb_le in Hle. constructor; [by constructor|].
      constructor; [done|]. eapply Forall_impl; [done|]. simpl. lia.
    + apply Z.leb_gt in Hle. constructor; [done|].
      rewrite place_perm. constructor; [lia|done].
Qed.

Lemma sorted_ordered l : ordered (sorted l).
Proof.
  induction l as [|x l IH]; simpl; [constructor|]. by apply place_ordered.
Qed.

Lemma queue_state_wf q :
  queue_state q → frontier_wf q ∧ ordered (_queue q).
Proof.
  induction 1 as [|q k p q' _ [IHwf IHo] Hset|q e q' _ [IHwf IHo] Hnext].
  - split; [apply wf_new|constructor].
  - destruct p as [p|]; [|done]. split.
    + by apply set_spec in Hset as (? & _).
    + injection Hset as <-. apply sorted_ordered.
  - split.
    + by apply next_spec in Hnext as (? & _).
    + apply next_spec in Hnext as (_ & Hq & _); [|done].
      rewrite Hq in IHo. by apply StronglySorted_inv in IHo as [? _].
Qed.

Lemma find_iff (l : list entry) k e :
  NoDup (key <$> l) → find k l = Some e ↔ e ∈ l ∧ key e = k.
Proof.
  intros Hnd. split; [apply find_Some|]. intros [He <-].
  revert Hnd He. induction l as [|x l IH]; simpl; [by intros _ ?%elem_of_nil|].
  intros [Hfresh Hnd]%NoDup_cons [-> | Hin]%elem_of_cons.
  - by rewrite decide_True.
  - case_decide as Hk; [|by apply IH]. destruct Hfresh. rewrite Hk.
    apply list_elem_of_fmap. eauto.
Qed.

(** Two lists with the same entries and no key twice answer [find] alike. *)
Lemma find_same (l l' : list entry) k :
  NoDup (key <$> l) → NoDup (key <$> l') →
  (∀ e, key e = k → e ∈ l' ↔ e ∈ l) → find k l' = find k l.
Proof.
  intros Hnd Hnd' Hsame. destruct (find k l) as [e|] eqn:Hf.
  - apply find_iff in Hf as [He Hk]; [|done]. apply find_iff; [done|].
    split; [|done]. by apply Hsame.
  - destruct (find k l') as [e'|] eqn:Hf'; [|done].
    apply find_iff in Hf' as [He Hk]; [|done]. apply Hsame in He; [|done].
    apply find_None in Hf. destruct Hf. rewrite <-Hk.
    apply list_elem_of_fmap. eauto.
Qed.

(** X1.  [next] serves an entry of least priority: no entry that stays in
    the queue has a lower one. *)
Theorem next_least q element q' e :
  queue_state q → next q = Normal (element, q') → e ∈ _queue q' →
  priority element ≤ priority e.
Proof.
  intros [Hwf Ho]%queue_state_wf Hnext He.
  apply next_spec in Hnext as (_ & Hq & _); [|done].
  rewrite Hq in Ho. apply StronglySorted_inv in Ho as [_ Hall].
  by eapply Forall_forall in Hall.
Qed.

Lemma sample_queue_state : queue_state sample_queue.
Proof.
  apply (queue_set (Queue ({[ "A" ]} ∪ ∅) [Entry "A" 3]) "B" (Some 1)).
  - apply (queue_set new "A" (Some 3)); [constructor|].
    vm_compute. reflexivity.
  - vm_compute. reflexivity.
Qed.

Lemma next_least_witness : priority (Entry "B" 1) ≤ priority (Entry "A" 3).
Proof.
  apply (next_least sample_queue (Entry "B" 1)
           (Queue ({[ "A" ]} ∪ ∅) [Entry "A" 3]) (Entry "A" 3)).
  - apply sample_queue_state.
  - vm_compute. reflexivity.
  - left.
Defined.

(** X2.  After [set(key, priority)], [get(key)] is the entry with that
    priority and [has(key)] holds; every other key answers [get] and [has]
    as before; the queue is one longer when the key is new and as long as
    before when it is not. *)
Theorem set_get q k p q' :
  queue_state q → set k (Some p) q = Normal q' →
  get k q' = Some (Entry k p) ∧ has k q' = true ∧
  (∀ k', k' ≠ k → get k' q' = get k' q ∧ has k' q' = has k' q) ∧
  length (_queue q') =
    (if has k q then length (_queue q) else S (length (_queue q))).
Proof.
  intros [Hwf Ho]%queue_state_wf Hset.
  pose proof (set_spec _ _ _ _ Hwf Hset) as ([Hnd' Hk'] & Hq & Hkeys).
  split; [|split; [|split]].
  - apply find_iff; [done|]. split; [|done]. apply Hq. by left.
  - apply bool_decide_eq_true, Hkeys. by left.
  - intros k' Hne. split.
    + apply find_same; [apply Hwf|done|]. intros e He. rewrite Hq.
      split; [intros [-> | [? _]]; [simpl in He; congruence | done]|].
      intros ?. right. split; [done | congruence].
    + unfold has. apply bool_decide_ext. rewrite Hkeys.
      split; [by intros [?|?] | by right].
  - injection Hset as <-. unfold has. simpl. case_decide as Hin.
    + rewrite bool_decide_eq_true_2 by done. simpl.
      by rewrite sorted_perm, length_fmap.
    + rewrite bool_decide_eq_false_2 by done. simpl.
      rewrite sorted_perm, length_app. simpl. lia.
Qed.

Lemma set_get_witness :
  ∃ q',
    set "A" (Some 0) sample_queue = Normal q' ∧
    get "A" q' = Some (Entry "A" 0) ∧ has "A" q' = true ∧
    (∀ k', k' ≠ "A" → get k' q' = get k' sample_queue ∧
                      has k' q' = has k' sample_queue) ∧
    length (_queue q') =
      (if has "A" sample_queue then length (_queue sample_queue)
       else S (length (_queue sample_queue))).
Proof.
  eexists. split; [reflexivity|].
  apply (set_get sample_queue "A" 0); [apply sample_queue_state|reflexivity].
Defined.

(** X3.  [has(key)] holds exactly when [get(key)] finds an entry, and the
    entry found carries that key: the set [_keys] mirrors the array
    [_queue]. *)
Theorem has_iff_get q k :
  queue_state q →
  (has k q = true ↔ is_Some (get k q)) ∧
  (∀ e, get k q = Some e → key e = k ∧ e ∈ _queue q).
Proof.
  intros [Hwf Ho]%queue_state_wf. split.
  - split.
    + intros (e & -> & _)%has_get; [by eexists | done].
    + intros [e [He Hk]%find_Some]. apply bool_decide_eq_true, Hwf.
      rewrite <-Hk. apply list_elem_of_fmap. eauto.
  - intros e [? ?]%find_Some. done.
Qed.

Lemma has_iff_get_witness :
  (has "B" sample_queue = true ↔ is_Some (get "B" sample_queue)) ∧
  (∀ e, get "B" sample_queue = Some e → key e = "B" ∧ e ∈ _queue sample_queue).
Proof. apply (has_iff_get sample_queue "B"), sample_queue_state. Defined.

(** X4.  [next] returns the entry that [get] found for its key and takes
    that key out: afterwards [has] and [get] no longer know it, every other
    key answers as before, and the queue is one shorter. *)
Theorem next_removes q element q' :
  queue_state q → next q = Normal (element, q') →
  get (key element) q = Some element ∧
  get (key element) q' = None ∧ has (key element) q' = false ∧
  (∀ k, k ≠ key element → get k q' = get k q ∧ has k q' = has k q) ∧
  length (_queue q) = S (length (_queue q')).
Proof.
  intros [Hwf Ho]%queue_state_wf Hnext.
  pose proof (next_spec _ _ _ Hwf Hnext) as ([Hnd' Hk'] & Hq & Hfresh & Hkeys).
  split; [|split; [|split; [|split]]].
  - apply find_iff; [apply Hwf|]. rewrite Hq. split; [left | done].
  - destruct (get (key element) q') as [e|] eqn:Hget; [|done].
    apply find_Some in Hget as [He Hk]. destruct Hfresh. rewrite <-Hk.
    apply list_elem_of_fmap. eauto.
  - apply bool_decide_eq_false. rewrite Hkeys. by intros [_ ?].
  - intros k Hne. split.
    + apply find_same; [apply Hwf|done|]. intros e He. rewrite Hq, elem_of_cons.
      split; [by right|]. intros [-> | ?]; [congruence | done].
    + unfold has. apply bool_decide_ext. rewrite Hkeys.
      split; [by intros [? _] | done].
  - by rewrite Hq.
Qed.

Lemma next_removes_witness :
  get "B" sample_queue = Some (Entry "B" 1) ∧
  get "B" (Queue ({[ "A" ]} ∪ ∅) [Entry "A" 3]) = None ∧
  has "B" (Queue ({[ "A" ]} ∪ ∅) [Entry "A" 3]) = false ∧
  (∀ k, k ≠ "B" →
     get k (Queue ({[ "A" ]} ∪ ∅) [Entry "A" 3]) = get k sample_queue ∧
     has k (Queue ({[ "A" ]} ∪ ∅) [Entry "A" 3]) = has k sample_queue) ∧
  length (_queue sample_queue) = 2%nat.
Proof.
  apply (next_removes sample_queue (Entry "B" 1)
           (Queue ({[ "A" ]} ∪ ∅) [Entry "A" 3]));
    [apply sample_queue_state | vm_compute; reflexivity].
Defined.

(** X5.  [isEmpty] holds exactly when the queue knows no key, and exactly
    then [next] throws (it reads [key] of [undefined]); a queue that is not
    empty always serves an entry. *)
Theorem isEmpty_iff q :
  queue_state q →
  (isEmpty q = true ↔ ∀ k, has k q = false) ∧
  (isEmpty q = true ↔ next q = Throw UndefinedProperty) ∧
  (isEmpty q = false ↔ ∃ element q', next q = Normal (element, q')).
Proof.
  intros [[Hnd Hk] Ho]%queue_state_wf. unfold isEmpty, has, next.
  destruct (_queue q) as [|e rest] eqn:Hq; simpl in *.
  - split; [|split]; [| |split; [done | by intros (? & ? & ?)]].
    + split; [|done]. intros _ k. apply bool_decide_eq_false. rewrite Hk.
      apply not_elem_of_nil.
    + done.
  - split; [|split]; [| |split; [eauto | done]].
    + split; [done|]. intros Hnone. specialize (Hnone (key e)).
      apply bool_decide_eq_false in Hnone. destruct Hnone. apply Hk. left.
    + done.
Qed.

Lemma isEmpty_iff_witness :
  (isEmpty sample_queue = true ↔ ∀ k, has k sample_queue = false) ∧
  (isEmpty sample_queue = true ↔ next sample_queue = Throw UndefinedProperty) ∧
  (isEmpty sample_queue = false ↔
   ∃ element q', next sample_queue = Normal (element, q')).
Proof. apply (isEmpty_iff sample_queue), sample_queue_state. Defined.

(** The frontier of a path query is such a queue at every point of the
    query. *)
Lemma during_queue_state start st :
  during start st → queue_state (frontier st).
Proof.
  induction 1 as [st Hseed|st node fr _ IH Hnext
                 |st node [_node _cost] st' _ IH Hrelax].
  - rewrite seeded_Normal in Hseed. injection Hseed as <-. simpl.
    apply (queue_set new start (Some 0)); [constructor|].
    unfold set, new. simpl. by rewrite decide_False by apply not_elem_of_empty.
  - simpl. by eapply queue_next.
  - revert Hrelax. unfold relax. case_decide; [by intros [= <-]|].
    destruct (negb _).
    + destruct (set _ _ _) as [fr|] eqn:Hset; [|done].
      intros [= <-]. simpl. by eapply queue_set.
    + destruct (get _ _) as [element|]; [|done].
      destruct (plus _ _) as [p|]; [|by intros [= <-]].
      destruct (_ <? _); [|by intros [= <-]].
      destruct (set _ _ _) as [fr|] eqn:Hset; [|done].
      intros [= <-]. simpl. by eapply queue_set.
Qed.

(** X6.  At every point of a path query, the node that the loop takes
    from the frontier has the least priority in it. *)
Theorem loop_takes_least start st node fr e :
  during start st → next (frontier st) = Normal (node, fr) → e ∈ _queue fr →
  priority node ≤ priority e.
Proof.
  intros [Hwf Ho]%during_queue_state%queue_state_wf Hnext He.
  apply next_spec in Hnext as (_ & Hq & _); [|done].
  rewrite Hq in Ho. apply StronglySorted_inv in Ho as [_ Hall].
  by eapply Forall_forall in Hall.
Qed.

Lemma loop_takes_least_witness :
  priority (Entry "B" 1) ≤ priority (Entry "C" 4).
Proof.
  eapply (loop_takes_least "A" _ (Entry "B" 1) _ (Entry "C" 4)).
  - eapply (during_relax _ _ (Entry "A" 0) ("C", VNum 4)).
    + eapply (during_relax _ _ (Entry "A" 0) ("B", VNum 1)).
      * eapply (during_next _ _ (Entry "A" 0)).
        -- apply during_seeded, seeded_Normal.
        -- vm_compute. reflexivity.
      * vm_compute. reflexivity.
    + vm_compute. reflexivity.
  - vm_compute. reflexivity.
  - left.
Defined.

End QueueFacts.

(** ** [populateMap], the constructor and [addNode] *)

Lemma map_get_set_eq {V} (m : Map V) k v : map_get (map_set k v m) k = Some v.
Proof.
  induction m as [|[k' v'] m IH]; simpl.
  - by rewrite decide_True.
  - case_decide as Hk; simpl; [by rewrite decide_True|].
    by rewrite decide_False.
Qed.

Lemma map_get_set_ne {V} (m : Map V) k k' v :
  k' ≠ k → map_get (map_set k v m) k' = map_get m k'.
Proof.
  intros Hne. induction m as [|[k0 v0] m IH]; simpl.
  - by rewrite decide_False.
  - case_decide as Hk; simpl.
    + subst k0. by rewrite !decide_False.
    + case_decide; [done | apply IH].
Qed.

Lemma map_set_keys {V} (m : Map V) k v :
  (map_set k v m).*1
  = match map_get m k with Some _ => m.*1 | None => m.*1 ++ [k] end.
Proof.
  induction m as [|[k' v'] m IH]; csimpl; [done|].
  case_decide as Hk; csimpl; [by subst|]. rewrite IH.
  by destruct (map_get m k).
Qed.

Lemma map_get_None {V} (m : Map V) k : map_get m k = None ↔ k ∉ m.*1.
Proof.
  induction m as [|[k' v'] m IH]; simpl.
  - split; [intros _; apply not_elem_of_nil | done].
  - rewrite not_elem_of_cons. case_decide as Hk.
    + split; [done|]. by intros [? _].
    + rewrite IH. split; [by intros ?|by intros [_ ?]].
Qed.

Lemma map_get_unique {V} (m : Map V) k v :
  NoDup m.*1 → (k, v) ∈ m → map_get m k = Some v.
Proof.
  induction m as [|[k' v'] m IH]; csimpl.
  - by intros _ ?%elem_of_nil.
  - intros [Hfresh Hnd]%NoDup_cons [[= -> ->] | Hin]%elem_of_cons.
    + by rewrite decide_True.
    + case_decide as Hk; [|by apply IH]. subst k'. destruct Hfresh.
      apply list_elem_of_fmap. by exists (k, v).
Qed.

Section building.
Variable StringToNumber : string → option Z.

(** The keys and the lookups of a populated [Map]. *)
Lemma populateMap_lookup fields map map' :
  NoDup fields.*1 → (∀ k, k ∈ fields.*1 → k ∉ map.*1) →
  populateMap StringToNumber map fields = (map', Normal tt) →
  map'.*1 = map.*1 ++ fields.*1 ∧
  (∀ k, k ∉ fields.*1 → map_get map' k = map_get map k) ∧
  (∀ k x, (k, x) ∈ fields →
     ∃ y, populateValue StringToNumber x = Normal y ∧ map_get map' k = Some y).
Proof.
  revert map. induction fields as [|[k x] fields IH]; intros map Hnd Hnew; simpl.
  - intros [= <-]. rewrite app_nil_r. split; [done|]. split; [done|].
    by intros ?? ?%elem_of_nil.
  - apply NoDup_cons in Hnd as [Hk Hnd]. simpl in *.
    destruct (populateValue _ x) as [y|] eqn:Hy; [|done]. intros Hpop.
    assert (map_get map k = None) as Hmk.
    { apply map_get_None, Hnew. left. }
    apply IH in Hpop as (Hkeys & Hother & Hin); [|done|].
    + rewrite map_set_keys, Hmk in Hkeys. rewrite Hkeys, <-app_assoc.
      split; [done|]. split.
      * intros k' [Hne Hk']%not_elem_of_cons.
        by rewrite Hother, map_get_set_ne.
      * intros k' x' [[= -> ->] | Hin']%elem_of_cons.
        -- exists y. split; [done|]. by rewrite Hother, map_get_set_eq.
        -- by apply Hin.
    + intros k' Hk'. rewrite map_set_keys, Hmk, elem_of_app, list_elem_of_singleton.
      intros [? | ->]; [|done]. eapply Hnew; [|done]. by right.
Qed.

(** X7.  When no cost of [neighbors] is rejected, [addNode] succeeds; it
    stores a [Map] under [name], at the place of the old record or after all
    nodes when [name] is new, and leaves every other node as it was. *)
Theorem addNode_valid name neighbors graph :
  invalid_cost StringToNumber (JObj neighbors) = false →
  ∃ m,
    addNode StringToNumber name neighbors graph
    = (map_set name (VMap m) graph, Normal tt) ∧
    map_get (map_set name (VMap m) graph) name = Some (VMap m) ∧
    (∀ other, other ≠ name →
       map_get (map_set name (VMap m) graph) other = map_get graph other) ∧
    (map_set name (VMap m) graph).*1
    = match map_get graph name with
      | Some _ => graph.*1
      | None => graph.*1 ++ [name]
      end.
Proof.
  intros Hvalid. pose proof (populateMap_invalid StringToNumber [] neighbors) as Hm.
  rewrite Hvalid in Hm. destruct Hm as [m Hm]. exists m. unfold addNode.
  rewrite Hm. split; [done|]. split; [apply map_get_set_eq|].
  split; [intros; by apply map_get_set_ne | apply map_set_keys].
Qed.

Lemma populateValue_leaf_number x y :
  (∀ fields, x ≠ JObj fields) → populateValue StringToNumber x = Normal y →
  ∃ c, y = VNum c ∧ ToNumber StringToNumber x = Some c ∧ 0 ≤ c.
Proof.
  intros Hleaf. pose proof (validateNode_spec StringToNumber x) as Hv.
  destruct x; try (by destruct (Hleaf fields)); cbn [populateValue];
    (destruct (ToNumber _ _) as [n|]; [destruct (n <? 0) eqn:Hn|];
     rewrite Hv; cbn; try done; intros [= <-]; exists n;
     (split; [done|split; [done|lia]])).
Qed.

(** X8.  After a successful [addNode(name, neighbors)] the edges that leave
    [name] are the properties of [neighbors] that are not objects, each with
    the number that [Number] gives for it; the edges of the other nodes are
    as before. *)
Theorem addNode_edges name neighbors graph graph' :
  NoDup neighbors.*1 →
  addNode StringToNumber name neighbors graph = (graph', Normal tt) →
  (∀ k c, edge graph' name k c ↔
          ∃ x, (k, x) ∈ neighbors ∧ (∀ fields, x ≠ JObj fields) ∧
               ToNumber StringToNumber x = Some c) ∧
  (∀ u k c, u ≠ name → edge graph' u k c ↔ edge graph u k c).
Proof.
  intros Hnd. unfold addNode.
  destruct (populateMap _ _ _) as [m [[]|e]] eqn:Hm; [|done]. intros [= <-].
  apply populateMap_lookup in Hm as (Hkeys & _ & Hin);
    [|done|by intros ? _ ?%elem_of_nil]. simpl in Hkeys.
  split.
  - intros k c. unfold edge. rewrite map_get_set_eq. split.
    + intros (m' & [= <-] & Hkc).
      assert (k ∈ neighbors.*1) as (kx & -> & Hkx)%list_elem_of_fmap.
      { rewrite <-Hkeys. apply list_elem_of_fmap. by exists (k, VNum c). }
      destruct kx as [k x]. simpl in *. exists x. split; [done|].
      destruct (Hin k x Hkx) as (y & Hy & Hget).
      rewrite (map_get_unique m k (VNum c)) in Hget;
        [|by rewrite Hkeys|done].
      injection Hget as <-. split.
      * intros fields ->. rewrite populateValue_object in Hy.
        by destruct (populateMap _ _ _) as [? []].
      * destruct x; try (rewrite populateValue_object in Hy;
                         by destruct (populateMap _ _ _) as [? []]);
          by apply populateValue_leaf_number in Hy as (? & [= <-] & ? & _).
    + intros (x & Hkx & Hleaf & Hnum). exists m. split; [done|].
      destruct (Hin k x Hkx) as (y & Hy & Hget).
      apply populateValue_leaf_number in Hy as (c' & -> & Hc' & _); [|done].
      apply map_get_Some. congruence.
  - intros u k c Hne. unfold edge. by rewrite map_get_set_ne.
Qed.

(** X9.  The constructor succeeds exactly when no cost of its argument, at
    any depth, is rejected by [validateNode]; when it throws, it throws one
    of the two errors of [validateNode]. *)
Theorem new_Graph_iff object :
  (invalid_cost StringToNumber (JObj object) = false ↔
   ∃ graph, new_Graph StringToNumber (Some object) = Normal graph) ∧
  (∀ e, new_Graph StringToNumber (Some object) = Throw e → InvalidCost e).
Proof.
  pose proof (populateMap_invalid StringToNumber [] object) as Hm.
  unfold new_Graph.
  destruct (invalid_cost StringToNumber (JObj object)).
  - destruct Hm as (map' & e & -> & He). split.
    + split; [done | by intros [? ?]].
    + by intros ? [= <-].
  - destruct Hm as (map' & ->). split; [|done]. split; [eauto | done].
Qed.

(** What [populateMap] stores holds no negative number, at any depth. *)
Lemma populateValue_deep x y :
  populateValue StringToNumber x = Normal y → nonneg_value y = true.
Proof.
  assert (∀ fields,
    Forall (λ kv, ∀ y, populateValue StringToNumber kv.2 = Normal y →
                       nonneg_value y = true) fields →
    ∀ map map' c,
      forallb (λ kv, nonneg_value kv.2) map = true →
      populateMap StringToNumber map fields = (map', c) →
      forallb (λ kv, nonneg_value kv.2) map' = true) as Hmap.
  { induction 1 as [|[k x'] fields Hx _ IH]; intros map map' c Hmap; simpl.
    - by intros [= <- _].
    - destruct (populateValue _ x') as [y'|] eqn:Hy; [|by intros [= <- _]].
      apply IH. apply (forallb_map_set _ k y'); [done| |done]. by apply Hx. }
  revert y. induction x as [| | | | | |fields IH] using jsval_nested_ind;
    intros [c|m] Hy;
    try (apply populateValue_number in Hy; by apply Z.leb_le);
    apply populateValue_group in Hy as (fields' & Heq & Hm); try done.
  injection Heq as <-. by apply (Hmap fields IH [] m (Normal tt)).
Qed.

Lemma populateMap_deep map fields map' c :
  forallb (λ kv, nonneg_value kv.2) map = true →
  populateMap StringToNumber map fields = (map', c) →
  forallb (λ kv, nonneg_value kv.2) map' = true.
Proof.
  revert map. induction fields as [|[k x] fields IH]; intros map Hmap; simpl.
  - by intros [= <- _].
  - destruct (populateValue _ x) as [y|] eqn:Hy; [|by intros [= <- _]].
    apply IH. apply (forallb_map_set _ k y); [done| |done].
    by apply (populateValue_deep x).
Qed.

(** X10.  No number of a graph that the constructor and [addNode] built is
    negative: no record of a node that is a number, no cost, and no cost
    in a nested group at any depth.  In particular no cost of an edge
    is. *)
Theorem constructed_nonneg graph :
  constructed StringToNumber graph →
  nonneg_numbers graph = true ∧ nonneg_costs graph = true.
Proof.
  intros Hgraph. split.
  - induction Hgraph
      as [object graph Hnew|graph name neighbors graph' c _ IH Hadd].
    + destruct object as [object|]; simpl in Hnew; [|by injection Hnew as <-].
      destruct (populateMap _ _ _) as [m [[]|e]] eqn:Hm; [|done].
      injection Hnew as <-. by apply (populateMap_deep [] object m (Normal tt)).
    + unfold addNode in Hadd.
      destruct (populateMap _ _ _) as [m [[]|e]] eqn:Hm;
        injection Hadd as <- <-; [|done].
      apply (forallb_map_set _ name (VMap m)); [done| |done]. simpl.
      by apply (populateMap_deep [] neighbors m (Normal tt)).
  - induction Hgraph
      as [object graph Hnew|graph name neighbors graph' c _ IH Hadd].
    + by eapply new_nonneg.
    + by eapply addNode_nonneg.
Qed.

(** X11.  The constructor on [{ name: neighbors, ... }] does what [addNode]
    does for each node in turn on an empty graph: it builds the same graph,
    and it throws when, and what, the first failing [addNode] throws. *)
Theorem new_Graph_addNodes nodes :
  new_Graph StringToNumber (Some (object_of nodes))
  = match addNodes StringToNumber nodes [] with
    | (graph, Normal _) => Normal graph
    | (_, Throw e) => Throw e
    end.
Proof.
  simpl.
  assert (∀ map, populateMap StringToNumber map (object_of nodes)
                 = addNodes StringToNumber nodes map) as ->; [|done].
  induction nodes as [|[name neighbors] nodes IH]; intros map; [done|].
  cbn [object_of fmap list_fmap addNodes populateMap fst snd].
  rewrite populateValue_object. unfold addNode.
  destruct (populateMap _ [] neighbors) as [m [[]|e]]; [apply IH | done].
Qed.

End building.

Lemma addNode_valid_witness :
  ∃ m,
    addNode (λ _, None) "D" [("A", JNum 2)] example_graph
    = (map_set "D" (VMap m) example_graph, Normal tt) ∧
    map_get (map_set "D" (VMap m) example_graph) "D" = Some (VMap m) ∧
    (∀ other, other ≠ "D" →
       map_get (map_set "D" (VMap m) example_graph) other
       = map_get example_graph other) ∧
    (map_set "D" (VMap m) example_graph).*1
    = match map_get example_graph "D" with
      | Some _ => example_graph.*1
      | None => example_graph.*1 ++ ["D"]
      end.
Proof.
  apply (addNode_valid (λ _, None) "D" [("A", JNum 2)] example_graph).
  reflexivity.
Defined.

Lemma addNode_edges_witness :
  (∀ k c, edge (map_set "D" (VMap [("A", VNum 2)]) example_graph) "D" k c ↔
          ∃ x, (k, x) ∈ [("A", JNum 2)] ∧ (∀ fields, x ≠ JObj fields) ∧
               ToNumber (λ _, None) x = Some c) ∧
  (∀ u k c, u ≠ "D" →
     edge (map_set "D" (VMap [("A", VNum 2)]) example_graph) u k c ↔
     edge example_graph u k c).
Proof.
  apply (addNode_edges (λ _, None) "D" [("A", JNum 2)] example_graph).
  - apply NoDup_singleton.
  - reflexivity.
Defined.

Lemma constructed_nonneg_witness :
  nonneg_numbers (map_set "D" (VMap [("A", VNum 2)]) example_graph) = true ∧
  nonneg_costs (map_set "D" (VMap [("A", VNum 2)]) example_graph) = true.
Proof.
  apply (constructed_nonneg (λ _, None)).
  apply (constructed_addNode _ example_graph "D" [("A", JNum 2)] _ (Normal tt)).
  - apply (constructed_new _
             (Some [("A", JObj [("B", JNum 1); ("C", JNum 4)]);
                    ("B", JObj [("C", JNum 1)]); ("C", JObj [])])).
    reflexivity.
  - reflexivity.
Defined.

(** ** [path]: what the search finds *)


(** With costs that are not negative, the sum that the code makes along a
    route does not fall. *)
Lemma travel_grows graph a p d :
  nonneg_costs graph = true → travel graph a p d → double a = a → a ≤ d.
Proof.
  intros Hnn. induction 1 as [a u|a u v q c d He _ IH]; intros Ha; [done|].
  pose proof (nonneg_costs_edge _ _ _ _ Hnn He) as Hc.
  pose proof (NumberFacts.double_fixed_nonneg a c Ha Hc).
  pose proof (IH (NumberFacts.double_idem _)). lia.
Qed.

Section optimality.
Import PriorityQueue FrontierFacts QueueFacts.

Variable graph : Graph.
Variable start : string.
Variable goal : string.

Lemma settled_seed prev taken :
  settled graph start prev taken → taken ≠ [] → Entry start 0 ∈ taken.
Proof.
  induction taken as [|e taken IH]; simpl; [done|].
  intros ([[-> ->] | (p & c & Hp & _)] & _ & Hs) _; [left|].
  right. apply IH; [done|]. intros ->. by apply elem_of_nil in Hp.
Qed.

(** Each taken entry is the end of a route from [start] along which the
    code's sum is its priority. *)
Lemma taken_route taken st e :
  invariant graph start taken st → e ∈ taken →
  ∃ p, travel graph 0 p (priority e) ∧ head p = Some start ∧
       last p = Some (key e).
Proof.
  intros Hinv He.
  destruct (walk_settled graph start (previous st) taken e)
    as (l & Hchain & _); [apply Hinv..|done|].
  apply chain_travel in Hchain as [Hroute Hlast].
  eexists. split; [done|]. split; [|done]. by rewrite reverse_app.
Qed.

Lemma relaxed_seeded st : seeded start = Normal st → relaxed graph start [] st.
Proof.
  intros Hseed. split.
  - by apply invariant_seeded.
  - rewrite seeded_Normal in Hseed. injection Hseed as <-. simpl.
    repeat constructor.
  - by intros ??? ?%elem_of_nil.
  - intros _. rewrite seeded_Normal in Hseed. by injection Hseed as <-.
  - by intros _ ? ?%elem_of_nil.
Qed.

(** A route that leaves an explored node and ends outside the explored set
    passes through the frontier, at a priority within its sum. *)
Lemma route_bound taken st a p d :
  relaxed graph start taken st → nonneg_costs graph = true →
  travel graph a p d →
  ∀ e t, e ∈ taken → priority e ≤ a → double a = a →
         head p = Some (key e) → last p = Some t → t ∉ explored st →
         ∃ f, f ∈ _queue (frontier st) ∧ priority f ≤ d.
Proof.
  intros Hrel Hnn. induction 1 as [a u|a u v q c d Hedge Htravel IH];
    intros e t He Ha Hfix Hhead Hlast Ht.
  - simpl in *. destruct Ht. apply (inv_explored _ _ _ _ (rel_invariant _ _ _ _ Hrel)).
    injection Hhead as ->. injection Hlast as <-.
    apply list_elem_of_fmap. eauto.
  - injection Hhead as ->.
    pose proof (NumberFacts.double_mono (priority e + c) (a + c) ltac:(lia))
      as Hmono.
    destruct (rel_covered _ _ _ _ Hrel e v c He Hedge)
      as [Hv | (f & Hf & _ & Hle)].
    + apply (inv_explored _ _ _ _ (rel_invariant _ _ _ _ Hrel)) in Hv.
      apply list_elem_of_fmap in Hv as (e' & -> & He').
      apply (IH e' t He'); [|apply NumberFacts.double_idem|done..].
      destruct (taken_route taken st e (rel_invariant _ _ _ _ Hrel) He)
        as (r & Hr & Hrh & Hrl).
      pose proof (travel_snoc _ _ _ _ _ _ _ Hr Hrl Hedge) as Hr'.
      assert (priority e' ≤ double (priority e + c)); [|lia].
      apply (rel_shortest _ _ _ _ Hrel Hnn e' He' _ _ Hr').
      * by destruct r.
      * by rewrite last_snoc.
    + exists f. split; [done|].
      pose proof (travel_grows _ _ _ _ Hnn Htravel (NumberFacts.double_idem _)).
      lia.
Qed.

(** The entry that [next] serves cannot be reached for less. *)
Lemma next_shortest taken st node fr :
  relaxed graph start taken st → nonneg_costs graph = true →
  next (frontier st) = Normal (node, fr) → shortest graph start node.
Proof.
  intros Hrel Hnn Hnext p d Hroute Hhead Hlast.
  pose proof (rel_invariant _ _ _ _ Hrel) as Hinv.
  pose proof (next_spec _ _ _ (inv_wf _ _ _ _ Hinv) Hnext) as (_ & Hq & _).
  assert (node ∈ _queue (frontier st)) as Hnode by (rewrite Hq; left).
  destruct taken as [|e0 taken0] eqn:Htaken.
  - destruct (inv_frontier _ _ _ _ Hinv node Hnode)
      as [[_ ->] | (? & _ & []%elem_of_nil & _)].
    simpl. by apply (travel_grows graph 0 p d).
  - rewrite <-Htaken in *.
    destruct (route_bound taken st 0 p d Hrel Hnn Hroute (Entry start 0) (key node))
      as (f & Hf & Hle); [|done|done|done|done| |].
    + eapply settled_seed; [apply Hinv|]. by rewrite Htaken.
    + by apply (inv_fresh _ _ _ _ Hinv).
    + pose proof (rel_ordered _ _ _ _ Hrel) as Ho.
      rewrite Hq in Ho, Hf. apply StronglySorted_inv in Ho as [_ Hall].
      apply elem_of_cons in Hf as [-> | Hf]; [lia|].
      eapply Forall_forall in Hall; [|done]. simpl in Hall. lia.
Qed.

Lemma covered_next st node fr e v c :
  frontier_wf (frontier st) → next (frontier st) = Normal (node, fr) →
  covered st e v c →
  covered (Search ({[key node]} ∪ explored st) fr (previous st)) e v c.
Proof.
  intros Hwf Hnext Hcov. apply next_spec in Hnext as (_ & Hq & _); [|done].
  destruct Hcov as [Hv | (f & Hf & Hk & Hle)].
  - left. simpl. apply elem_of_union. by right.
  - rewrite Hq in Hf. apply elem_of_cons in Hf as [-> | Hf].
    + left. simpl. apply elem_of_union. left. by apply elem_of_singleton.
    + right. by exists f.
Qed.

(** One call of the callback keeps what was covered and covers the edge
    that it was called for. *)
Lemma relax_covered st node _node _cost st' :
  frontier_wf (frontier st) → ordered (_queue (frontier st)) →
  relax node st (_node, _cost) = Normal st' →
  ordered (_queue (frontier st')) ∧
  (∀ e v c, covered st e v c → covered st' e v c) ∧
  (∀ c, _cost = VNum c → covered st' node _node c).
Proof.
  intros Hwf Ho. unfold relax. case_decide as Hex.
  { intros [= <-]. split; [done|]. split; [done|]. intros c _. by left. }
  assert (∀ p fr,
    set _node (Some p) (frontier st) = Normal fr →
    (∀ f, f ∈ _queue (frontier st) → key f = _node → p ≤ priority f) →
    let st' := Search (explored st) fr (<[_node := key node]> (previous st)) in
    ordered (_queue (frontier st')) ∧
    (∀ e v c, covered st e v c → covered st' e v c) ∧
    (∀ c, p ≤ double (priority node + c) → covered st' node _node c)) as Hset.
  { intros p fr Hset Hlow. pose proof (set_spec _ _ _ _ Hwf Hset) as (_ & Hq & _).
    simpl. split; [|split].
    - injection Hset as <-. apply sorted_ordered.
    - intros e v c [Hv | (f & Hf & Hk & Hle)]; [by left|]. right.
      destruct (decide (v = _node)) as [-> | Hne].
      + exists (Entry _node p). simpl. split; [apply Hq; by left|].
        split; [done|]. specialize (Hlow f Hf Hk). lia.
      + exists f. split; [|done]. apply Hq. right. split; [done | congruence].
    - intros c Hle. right. exists (Entry _node p). simpl.
      split; [apply Hq; by left | done]. }
  destruct (has _node (frontier st)) eqn:Hhas; cbn.
  - destruct (has_get (frontier st) _node Hwf Hhas) as (element & -> & Hel & Hkey).
    destruct _cost as [c|m']; cbn; [|intros [= <-]; by split].
    destruct (double (priority node + c) <? priority element) eqn:Hlt.
    + apply Z.ltb_lt in Hlt.
      destruct (set _ _ _) as [fr|] eqn:Hfr; [|done]. cbn. intros [= <-].
      destruct (Hset _ _ Hfr) as (? & ? & Hnew).
      { intros f Hf Hk. replace f with element; [lia|].
        assert (find _node (_queue (frontier st)) = Some f) as Hfind.
        { apply find_iff; [apply Hwf | done]. }
        assert (find _node (_queue (frontier st)) = Some element) as Hfind'.
        { apply find_iff; [apply Hwf | done]. }
        congruence. }
      split; [done|]. split; [done|]. intros ? [= <-]. apply Hnew. lia.
    + apply Z.ltb_ge in Hlt. intros [= <-]. split; [done|]. split; [done|].
      intros ? [= <-]. right. by exists element.
  - destruct _cost as [c|m']; cbn; [|unfold set; by cbn].
    destruct (set _ _ _) as [fr|] eqn:Hfr; [|done]. cbn. intros [= <-].
    destruct (Hset _ _ Hfr) as (? & ? & Hnew).
    { intros f Hf Hk. apply bool_decide_eq_false in Hhas. destruct Hhas.
      apply Hwf. rewrite <-Hk. apply list_elem_of_fmap. eauto. }
    split; [done|]. split; [done|]. intros ? [= <-]. apply Hnew. lia.
Qed.

Lemma forEach_covered taken node m neighbors st st' :
  invariant graph start taken st → node ∈ taken →
  map_get graph (key node) = Some (VMap m) → neighbors ⊆ m →
  ordered (_queue (frontier st)) →
  forEach (relax node) neighbors st = Normal st' →
  invariant graph start taken st' ∧
  ordered (_queue (frontier st')) ∧
  (∀ e v c, covered st e v c → covered st' e v c) ∧
  (∀ v c, (v, VNum c) ∈ neighbors → covered st' node v c).
Proof.
  intros Hinv Hnode Hm. revert st Hinv.
  induction neighbors as [|[v x] neighbors IH]; intros st Hinv Hsub Ho;
    cbn [forEach].
  - intros [= <-]. split; [done|]. split; [done|]. split; [done|].
    by intros ?? ?%elem_of_nil.
  - assert ((v, x) ∈ m) as Hnb by (apply Hsub; left).
    pose proof (relax_spec graph start taken st node m (v, x) Hinv Hnode Hm Hnb)
      as Hr.
    destruct (relax node st (v, x)) as [st1|] eqn:Hrelax; [|by cbn]. cbn.
    apply relax_covered in Hrelax as (Ho1 & Hkeep1 & Hnew1);
      [|apply Hinv|done].
    intros Hrest. apply IH in Hrest as (Hinv' & Ho' & Hkeep & Hnew);
      [|done|intros ??; apply Hsub; by right|done].
    split; [done|]. split; [done|]. split; [by intros; apply Hkeep, Hkeep1|].
    intros v' c [[= -> <-] | Hin]%elem_of_cons; [|by apply Hnew].
    by apply Hkeep, Hnew1.
Qed.

(** One round of the loop on a node that is not the goal. *)
Lemma expand_relaxed taken st node fr :
  relaxed graph start taken st → next (frontier st) = Normal (node, fr) →
  match expand graph node (Search (explored st) fr (previous st)) with
  | Normal st' => relaxed graph start (node :: taken) st'
  | Throw e => e = NotAFunction ∨ e = PriorityNotANumber
  end.
Proof.
  intros Hrel Hnext. pose proof (rel_invariant _ _ _ _ Hrel) as Hinv.
  pose proof (invariant_next graph start _ _ _ _ Hinv Hnext) as Hinv'.
  pose proof (next_spec _ _ _ (inv_wf _ _ _ _ Hinv) Hnext) as (_ & Hq & _).
  assert (ordered (_queue fr)) as Ho.
  { pose proof (rel_ordered _ _ _ _ Hrel) as Ho. rewrite Hq in Ho.
    by apply StronglySorted_inv in Ho as [? _]. }
  assert (∀ e v c, e ∈ taken → edge graph (key e) v c →
            covered (Search ({[key node]} ∪ explored st) fr (previous st)) e v c)
    as Hold.
  { intros e v c He Hedge. apply covered_next; [apply Hinv|done|].
    by apply (rel_covered _ _ _ _ Hrel). }
  assert (nonneg_costs graph = true →
          ∀ e, e ∈ node :: taken → shortest graph start e) as Hshort.
  { intros Hnn e [-> | He]%elem_of_cons.
    - by eapply next_shortest.
    - by apply (rel_shortest _ _ _ _ Hrel). }
  unfold expand, neighbors_of. cbn [key explored frontier previous].
  destruct (map_get graph (key node)) as [[c|m]|] eqn:Hm; cbn.
  - destruct (c =? 0); cbn; [|by left]. split; [done|done| |done|done].
    intros e v c' [-> | He]%elem_of_cons Hedge; [|by apply Hold].
    destruct Hedge as (m & Hm' & _). congruence.
  - pose proof (forEach_relax_spec graph start (node :: taken) node m m _ Hinv')
      as Hthrow.
    destruct (forEach _ _ _) as [st'|e] eqn:Hfor.
    + apply forEach_covered with (taken := node :: taken) (m := m) in Hfor
        as (Hinv'' & Ho' & Hkeep & Hnew); [|done|left|done|done|done].
      split; [done|done| |done|done].
      intros e v c [-> | He]%elem_of_cons Hedge.
      * destruct Hedge as (m' & Hm' & Hin). apply Hnew. congruence.
      * by apply Hkeep, Hold.
    + right. by destruct Hthrow as [-> _]; [left|..].
  - split; [done|done| |done|done].
    intros e v c' [-> | He]%elem_of_cons Hedge; [|by apply Hold].
    destruct Hedge as (m & Hm' & _). congruence.
Qed.

(** When the frontier is empty, no edge leaves the explored set. *)
Lemma exhausted_closed taken st p d :
  relaxed graph start taken st → _queue (frontier st) = [] →
  route graph p d →
  ∀ u t, head p = Some u → u ∈ explored st → last p = Some t →
         t ∈ explored st.
Proof.
  intros Hrel Hempty. pose proof (rel_invariant _ _ _ _ Hrel) as Hinv.
  induction 1 as [u|u v q c d Hedge Hroute IH]; intros u' t Hhead Hu Hlast.
  - simpl in *. congruence.
  - injection Hhead as <-.
    apply (inv_explored _ _ _ _ Hinv) in Hu.
    apply list_elem_of_fmap in Hu as (e & -> & He).
    destruct (rel_covered _ _ _ _ Hrel e v c He Hedge) as [Hv | (f & Hf & _)].
    + by apply (IH v t).
    + rewrite Hempty in Hf. by apply elem_of_nil in Hf.
Qed.

(** What the loop returns, when it returns. *)
Lemma loop_relaxed fuel taken st c :
  relaxed graph start taken st → goal ∉ key <$> taken →
  loop fuel graph goal st = Some c →
  match c with
  | Normal (path, totalCost) =>
      (path = [] → start = goal ∨ ¬ connected graph start goal) ∧
      (path ≠ [] → nonneg_costs graph = true →
       shortest graph start (Entry goal totalCost))
  | Throw e => e = NotAFunction ∨ e = PriorityNotANumber
  end.
Proof.
  revert taken st. induction fuel as [|fuel IH]; intros taken st Hrel Hgoal; [done|].
  pose proof (rel_invariant _ _ _ _ Hrel) as Hinv.
  cbn [loop]. destruct (isEmpty (frontier st)) eqn:Hempty.
  { intros [= <-]. split; [|done]. intros _. right.
    intros (p & d & Hroute & Hhead & Hlast).
    unfold isEmpty in Hempty. apply bool_decide_eq_true in Hempty.
    assert (_queue (frontier st) = []) as Hq by by destruct (_queue (frontier st)).
    apply Hgoal, (inv_explored _ _ _ _ Hinv).
    eapply (exhausted_closed taken st p d); [done..| |done].
    apply (inv_explored _ _ _ _ Hinv).
    eapply settled_start; [apply Hinv|]. intros ->.
    by apply (rel_seed _ _ _ _ Hrel). }
  apply isEmpty_false in Hempty as (node & fr & Hnext). rewrite Hnext.
  case_decide as Hkey; cbn [previous explored frontier].
  - destruct (walk _ _ _) as [path|] eqn:Hwalk; [|done]. cbn. intros [= <-].
    split.
    + intros ->. left.
      pose proof (next_spec _ _ _ (inv_wf _ _ _ _ Hinv) Hnext) as (_ & Hq & _).
      destruct (inv_frontier _ _ _ _ Hinv node) as [[_ ->] | (p & c' & _ & Hprev & _)];
        [rewrite Hq; left|done|].
      simpl in Hwalk. rewrite Hprev in Hwalk.
      by destruct (walk _ _ _).
    + intros _ Hnn. pose proof (next_shortest taken st node fr Hrel Hnn Hnext) as Hs.
      intros p d Hroute Hhead Hlast. apply (Hs p d Hroute Hhead).
      by rewrite Hkey.
  - pose proof (expand_relaxed taken st node fr Hrel Hnext) as Hexp.
    destruct (expand _ _ _) as [st'|e]; [|by intros [= <-]].
    apply (IH (node :: taken)); [done|]. by apply not_elem_of_cons.
Qed.
End optimality.

(** What a call of [path] on a graph with nodes hands to [shape]. *)
Lemma path_search graph start goal options c' :
  graph ≠ [] → path graph start goal options = Some c' →
  ∃ c,
    loop (2 + length (targets graph)) graph goal
      (Search ∅ (Queue ({[start]} ∪ ∅) [Entry start 0]) ∅) = Some c ∧
    c' = ('(p, d) ← c; Normal (shape (defaulted options) start p d)).
Proof.
  intros Hne. unfold path, path_within.
  rewrite bool_decide_eq_false_2 by by destruct graph.
  rewrite seeded_Normal. destruct (loop _ _ _ _) as [c|]; [|done].
  intros [= <-]. by exists c.
Qed.

Lemma route_empty_graph p d : route [] p d → head p = last p.
Proof. destruct 1 as [u|u v q c d (m & Hm & _) _]; done. Qed.




(** X13.  When a route leads from [start] to a different node [goal] and
    the call returns, it returns a path, not "no path". *)
Theorem path_complete graph start goal options r :
  connected graph start goal → start ≠ goal →
  path graph start goal options = Some (Normal r) →
  is_Some (result_path r).
Proof.
  intros Hconn Hne Hpath. destruct (decide (graph = [])) as [-> | Hgraph].
  { destruct Hconn as (p & d & Hroute%route_empty_graph & Hhead & Hlast).
    congruence. }
  destruct (path_search graph start goal options _ Hgraph Hpath)
    as (c & Hloop & Hc).
  destruct c as [[raw d]|e]; [|done]. cbn in Hc. injection Hc as ->.
  destruct raw as [|x raw]; [|apply result_path_shape_cons].
  apply (loop_relaxed graph start goal) with (taken := []) in Hloop as [Hnone _].
  - by destruct Hnone.
  - apply relaxed_seeded, seeded_Normal.
  - apply not_elem_of_nil.
Qed.

Lemma example_connected : connected example_graph "A" "C".
Proof.
  exists ["A"; "C"], (4 + 0). split; [|done].
  constructor; [|constructor]. eexists. split; [reflexivity|].
  right. left.
Qed.

Lemma path_complete_witness :
  is_Some (result_path (RPath ["A"; "B"; "C"])).
Proof.
  apply (path_complete example_graph "A" "C" JUndefined).
  - exact example_connected.
  - done.
  - vm_compute. reflexivity.
Defined.

(** X14.  The only errors that [path] throws are the [TypeError] of
    [PriorityQueue#set] for a priority that is not a number and the one of
    calling [forEach] on a record that is a number; [next] is never called
    on an empty frontier and [get] never misses. *)
Theorem path_errors graph start goal options e :
  path graph start goal options = Some (Throw e) →
  e = NotAFunction ∨ e = PriorityNotANumber.
Proof.
  intros Hpath. destruct (decide (graph = [])) as [-> | Hgraph]; [done|].
  destruct (path_search graph start goal options _ Hgraph Hpath)
    as (c & Hloop & Hc).
  destruct c as [[raw d]|e']; [done|]. cbn in Hc. injection Hc as ->.
  apply (loop_relaxed graph start goal) with (taken := []) in Hloop; [done| |].
  - apply relaxed_seeded, seeded_Normal.
  - apply not_elem_of_nil.
Qed.

Lemma path_errors_witness :
  PriorityNotANumber = NotAFunction ∨ PriorityNotANumber = PriorityNotANumber.
Proof.
  apply (path_errors nested_graph "A" "Z" JUndefined).
  vm_compute. reflexivity.
Defined.

(** X15.  No node occurs twice in an array that [path] returns, whatever
    the options. *)
Theorem path_simple graph start goal options r p :
  path graph start goal options = Some (Normal r) →
  result_path r = Some p → NoDup p.
Proof.
  intros Hpath Hp.
  destruct (path_found _ _ _ _ _ _ Hpath Hp) as (l & d & _ & Hnd & Hstart & Hall).
  rewrite Hall in Hpath. injection Hpath as <-. rewrite shape_cons in Hp.
  assert (NoDup ((goal :: l) ++ [start])) as Hfull.
  { apply NoDup_app. split; [done|]. split; [|apply NoDup_singleton].
    by intros x Hx ->%list_elem_of_singleton. }
  assert (NoDup l) as Hl by by apply NoDup_cons in Hnd as [_ ?].
  cbn zeta in Hp.
  destruct (property _ "trim"), (property _ "reverse"), (property _ "cost");
    cbn [result_path] in Hp; injection Hp as <-;
    by rewrite ?reverse_Permutation.
Qed.

Lemma path_simple_witness : NoDup ["A"; "B"; "C"].
Proof.
  apply (path_simple example_graph "A" "C" JUndefined (RPath ["A"; "B"; "C"]));
    vm_compute; reflexivity.
Defined.

(** X16.  From a start node that has no record in the graph, or an empty
    one, [path] finds nothing and throws nothing, whatever the goal. *)
Theorem path_no_edges graph start goal options :
  map_get graph start = None ∨ map_get graph start = Some (VMap []) →
  path graph start goal options = Some (Normal (no_path options)).
Proof.
  intros Hstart.
  assert (neighbors_of graph start = Normal []) as Hn.
  { unfold neighbors_of. by destruct Hstart as [-> | ->]. }
  unfold path, path_within. case_bool_decide; [done|].
  rewrite seeded_Normal.
  change (2 + length (targets graph))%nat
    with (S (S (length (targets graph)))).
  cbn [loop]. cbn. case_decide as Hgoal.
  - cbn. by rewrite lookup_empty.
  - unfold expand. cbn. rewrite Hn. cbn. done.
Qed.

Lemma path_no_edges_witness :
  path example_graph "C" "A" with_cost = Some (Normal (no_path with_cost)).
Proof. apply path_no_edges. right. reflexivity. Defined.

(** X17.  A query that starts at a node whose record is a number other
    than 0, for another goal, throws the [TypeError] of calling [forEach]
    on a number. *)
Theorem path_number_record graph start goal options c :
  map_get graph start = Some (VNum c) → c ≠ 0 → start ≠ goal →
  path graph start goal options = Some (Throw NotAFunction).
Proof.
  intros Hstart Hc Hgoal.
  assert (neighbors_of graph start = Throw NotAFunction) as Hn.
  { unfold neighbors_of. rewrite Hstart.
    by destruct (c =? 0) eqn:Hz; [apply Z.eqb_eq in Hz|]. }
  unfold path, path_within. case_bool_decide as Hsize.
  { by destruct graph. }
  rewrite seeded_Normal.
  change (2 + length (targets graph))%nat
    with (S (S (length (targets graph)))).
  cbn [loop]. cbn. rewrite decide_False by done.
  unfold expand. cbn. by rewrite Hn.
Qed.

Lemma path_number_record_witness :
  path [("A", VNum 5)] "A" "B" JUndefined = Some (Throw NotAFunction).
Proof. by apply (path_number_record [("A", VNum 5)] "A" "B" JUndefined 5). Defined.

(** X18.  The [cost] option only wraps the result: two calls whose options
    agree on [trim] and on [reverse] return the same array, or both none,
    or throw the same error. *)
Theorem path_array_ignores_cost graph start goal options options' :
  property (defaulted options) "trim" = property (defaulted options') "trim" →
  property (defaulted options) "reverse"
  = property (defaulted options') "reverse" →
  fmap (M:=completion) result_path <$> path graph start goal options
  = fmap (M:=completion) result_path <$> path graph start goal options'.
Proof.
  intros Htrim Hrev. unfold path, path_within. case_bool_decide.
  { cbn. by do 2 destruct (property _ "cost"). }
  rewrite seeded_Normal.
  destruct (loop _ _ _ _) as [[[raw d]|e]|]; [|done..]. cbn. do 2 f_equal.
  unfold shape. rewrite Htrim, Hrev.
  by case_bool_decide; do 2 destruct (property _ "cost").
Qed.

Lemma path_array_ignores_cost_witness :
  fmap (M:=completion) result_path <$> path example_graph "A" "C" with_cost
  = fmap (M:=completion) result_path <$> path example_graph "A" "C" JUndefined.
Proof. by apply path_array_ignores_cost. Defined.

(** X19.  The cost that [path] reports does not depend on [trim] or
    [reverse]: with [trim] it is still the cost of the whole route, the
    edges at the removed end points included. *)
Theorem path_cost_ignores_trim graph start goal options options' :
  property (defaulted options) "cost" = true →
  property (defaulted options') "cost" = true →
  fmap (M:=completion) result_cost <$> path graph start goal options
  = fmap (M:=completion) result_cost <$> path graph start goal options'.
Proof.
  intros Hcost Hcost'. unfold path, path_within. case_bool_decide.
  { cbn. by rewrite Hcost, Hcost'. }
  rewrite seeded_Normal.
  destruct (loop _ _ _ _) as [[[raw d]|e]|]; [|done..]. cbn. do 2 f_equal.
  unfold shape. rewrite Hcost, Hcost'. by case_bool_decide.
Qed.

Lemma path_cost_ignores_trim_witness :
  fmap (M:=completion) result_cost <$> path example_graph "A" "C" with_cost
  = fmap (M:=completion) result_cost
      <$> path example_graph "A" "C"
            (JObj [("cost", JBool true); ("trim", JBool true)]).
Proof. by apply path_cost_ignores_trim. Defined.

(** The callback meets a nested group under a key that is not explored:
    the priority it computes for [frontier.set] is [NaN]. *)
Lemma forEach_relax_nested node (m : Map value) st :
  NoDup m.*1 →
  (∀ k, k ∈ m.*1 → k ∉ _keys (frontier st)) →
  (∃ k g, (k, VMap g) ∈ m ∧ k ∉ explored st) →
  forEach (relax node) m st = Throw PriorityNotANumber.
Proof.
  revert st. induction m as [|[k v] m IH]; intros st Hnd Hfresh Hnested.
  { destruct Hnested as (? & ? & Hin & _). by apply elem_of_nil in Hin. }
  rewrite fmap_cons in Hnd. apply NoDup_cons in Hnd as [Hk Hnd].
  assert (relax node st (k, v) = Throw PriorityNotANumber ∨
          ∃ st', relax node st (k, v) = Normal st' ∧
                 explored st' = explored st ∧
                 _keys (frontier st') ⊆ {[k]} ∪ _keys (frontier st) ∧
                 (∀ g, v = VMap g → k ∈ explored st)) as Hrelax.
  { unfold relax. case_decide as Hexplored.
    - right. exists st. repeat split; [|done]. apply union_subseteq_r.
    - unfold PriorityQueue.has.
      rewrite bool_decide_eq_false_2 by (apply Hfresh; left).
      cbn [negb]. destruct v as [c|g]; [|by left]. right.
      unfold PriorityQueue.set. cbn.
      rewrite decide_False by (apply Hfresh; left).
      eexists. by repeat split. }
  cbn [forEach]. destruct Hrelax as [-> | (st' & -> & HE & Hkeys & Hv)]; [done|].
  cbn. apply IH; [done| |].
  - intros k' Hk' [->%elem_of_singleton | Hin]%Hkeys%elem_of_union; [done|].
    revert Hin. apply Hfresh. by right.
  - rewrite HE.
    destruct Hnested as (k' & g & [[= -> <-] | Hin]%elem_of_cons & Hk'); [|eauto].
    destruct Hk'. by eapply Hv.
Qed.

(** X20.  A query that starts at a node whose record holds a nested group
    of costs, under a key other than the node's own, throws the
    [TypeError] of [PriorityQueue#set] when the goal is another node. *)
Theorem path_nested_group graph start goal options m :
  start ≠ goal → map_get graph start = Some (VMap m) → NoDup m.*1 →
  (∃ k g, (k, VMap g) ∈ m ∧ k ≠ start) →
  path graph start goal options = Some (Throw PriorityNotANumber).
Proof.
  intros Hgoal Hstart Hnd (k & g & Hin & Hk).
  unfold path, path_within. case_bool_decide as Hsize.
  { by destruct graph. }
  rewrite seeded_Normal.
  change (2 + length (targets graph))%nat
    with (S (S (length (targets graph)))).
  cbn [loop]. cbn. rewrite decide_False by done.
  unfold expand, neighbors_of. cbn. rewrite Hstart. cbn.
  rewrite forEach_relax_nested; [by cbn|done| |].
  - cbn. intros k' _ [Hs Hk']%elem_of_difference.
    by apply elem_of_union in Hs as [Hs | Hs%elem_of_empty].
  - exists k, g. split; [done|]. cbn.
    intros [?%elem_of_singleton | ?%elem_of_empty]%elem_of_union; done.
Qed.

Lemma path_nested_group_witness :
  path nested_graph "A" "Z" JUndefined = Some (Throw PriorityNotANumber).
Proof.
  apply (path_nested_group nested_graph "A" "Z" JUndefined
           [("B", VMap [("C", VNum 1)])]).
  - done.
  - reflexivity.
  - apply NoDup_singleton.
  - exists "B", [("C", VNum 1)]. split; [left|done].
Defined.
